(** * The bootstrap sequence of the web client: src/vector/index.ts

    A shallow embedding of the loader script: the feature probe
    [checkBrowserFeatures], the helper [settled], the orchestrator [start]
    and the handler attached to [start().catch].  JavaScript control flow is
    kept as completion records (normal, return, throw) extended with a
    completion for an [await] on a promise that never settles; the script's
    observable actions are collected as a list of events. *)

From Stdlib Require Import String ZArith List Bool Lia.
From stdpp Require Import base gmap strings.
Import ListNotations.

Open Scope string_scope.
Open Scope Z_scope.
Open Scope list_scope.

(** ** JavaScript values *)

(** The values the script inspects: it only tests them for strict equality
    with [undefined] and [false], for truthiness and for being a function. *)
Inductive JsVal : Type :=
| VUndefined
| VNull
| VBool (b : bool)
| VString (s : string)
| VFunction
| VObject.

(** [Boolean(v)], [!v], [v || w], [v && w] *)
Definition truthy (v : JsVal) : bool :=
  match v with
  | VUndefined | VNull => false
  | VBool b => b
  | VString s => negb (s =? "")%string
  | VFunction | VObject => true
  end.

Definition js_or (v w : JsVal) : JsVal := if truthy v then v else w.
Definition js_and (v w : JsVal) : JsVal := if truthy v then w else v.

(** [v === undefined] and [v === false] *)
Definition is_undefined (v : JsVal) : bool :=
  match v with VUndefined => true | _ => false end.
Definition is_false (v : JsVal) : bool :=
  match v with VBool false => true | _ => false end.

(** [typeof v === "function"] *)
Definition is_function (v : JsVal) : bool :=
  match v with VFunction => true | _ => false end.

(** An object with string keys, as the list of its own enumerable properties
    in enumeration order: [Object.keys] is the list of first components. *)
Definition JsObject : Type := list (string * JsVal).

Definition Object_keys (o : JsObject) : list string := map fst o.

(** [o[key]]: the property's value, [undefined] when there is none. *)
Fixpoint get (o : JsObject) (key : string) : JsVal :=
  match o with
  | [] => VUndefined
  | (k, v) :: rest => if (k =? key)%string then v else get rest key
  end.

(** A string-to-string dictionary read as an object: [m.key] *)
Definition prop (m : gmap string string) (key : string) : JsVal :=
  match m !! key with
  | Some s => VString s
  | None => VUndefined
  end.

(** [hay.indexOf(needle)]: the position of the first occurrence, or -1. *)
Fixpoint indexOf_from (needle hay : string) (i : Z) : Z :=
  if String.prefix needle hay then i
  else match hay with
       | EmptyString => -1
       | String _ rest => indexOf_from needle rest (i + 1)
       end.

Definition indexOf (hay needle : string) : Z := indexOf_from needle hay 0.

(** [/a|b|c/.test(s)] for a regular expression that is an alternation of
    literal words: some word occurs in [s]. *)
Definition regex_test (alternatives : list string) (s : string) : bool :=
  existsb (fun word => negb (indexOf s word =? -1)) alternatives.

(** ** Errors, promises and calls into collaborators *)

(** The [err] property of a rejection value: [instanceof SyntaxError] and
    [message]. *)
Record Cause : Type := mkCause {
  isSyntaxError : bool;
  message : string
}.

(** A thrown value or rejection reason other than [null] and [undefined]:
    of an object the script reads the properties [err] (missing or falsy:
    [None]) and [translatedMessage] (missing: [undefined]); a thrown
    primitive has neither. *)
Record ErrorObject : Type := mkError {
  description : string;
  err : option Cause;
  translatedMessage : JsVal
}.

Inductive Nullish : Type := Undefined | Null.

(** A thrown value or rejection reason: anything can be thrown, also
    [null] and [undefined], on which a property read throws in turn. *)
Inductive JsError : Type :=
| ThrownNullish (n : Nullish)
| ThrownObject (o : ErrorObject).

(** The TypeError of a property read on [null] or [undefined] (the text is
    the engine's). *)
Definition TypeError (n : Nullish) (property : string) : JsError :=
  ThrownObject
    {| description :=
         "TypeError: Cannot read properties of "
         +:+ match n with Undefined => "undefined" | Null => "null" end
         +:+ " (reading '" +:+ property +:+ "')";
       err := None;
       translatedMessage := VUndefined |}.

(** The terminal state of a one-shot promise; [Pending] is a promise that
    never settles. *)
Inductive Promise (A : Type) : Type :=
| Fulfilled (a : A)
| Rejected (e : JsError)
| Pending.
Arguments Fulfilled {A} a.
Arguments Rejected {A} e.
Arguments Pending {A}.

(** What a call of a collaborator's function does: return or throw. *)
Inductive CallResult (A : Type) : Type :=
| Returns (a : A)
| Raises (e : JsError).
Arguments Returns {A} a.
Arguments Raises {A} e.

(** What the user does with the incompatible-browser page: press its
    button, which runs the callback, or never press it. *)
Inductive UserResponse : Type := UserAccepts | UserNever.

(** The exports of "./init" that [start] destructures. *)
Record InitModule : Type := mkInit {
  rageshakePromise : Promise JsVal;
  setupLogStorage : CallResult (Promise JsVal);
  preparePlatform : CallResult unit;
  loadOlm : CallResult (Promise JsVal);
  loadConfig : CallResult (Promise JsVal);
  loadSkin : CallResult (Promise JsVal);
  loadLanguage : CallResult (Promise JsVal);
  loadTheme : CallResult (Promise JsVal);
  loadApp : gmap string string -> CallResult (Promise JsVal);
  showError : string -> list JsVal -> CallResult (Promise JsVal);
  showIncompatibleBrowser : CallResult UserResponse;
  _t : string -> list (string * string) -> string
}.

(** The result of [parseQsFromFragment(window.location)]. *)
Record FragParts : Type := mkFrag {
  params : gmap string string;
  location : string
}.

(** What the page load finds and does not change. *)
Record Env : Type := mkEnv {
  (* window.Promise?.prototype?.finally *)
  Promise_prototype_finally : JsVal;
  (* window.RegExp?.prototype, and when it is there the [get] of the
     property descriptor of its "dotAll" *)
  RegExp_prototype : option JsVal;
  (* window.Object?.fromEntries *)
  Object_fromEntries : JsVal;
  (* Modernizr.addTest(name, test), from the bundled build "./modernizr":
     the object with the value of the test registered *)
  addTest : string -> JsVal -> JsObject -> JsObject;
  userAgent : string;
  MSStream : JsVal;
  cookie : string;
  fragparts_of_location : FragParts;
  import_init : Promise InitModule
}.

(** ** The page: mutable state and observable actions *)

(** The [iframe] element the last-resort handler builds. *)
Record Iframe : Type := mkIframe {
  sandbox : string;
  src : string;
  style_width : string;
  style_height : string;
  style_position : string;
  style_top : string;
  style_left : string;
  style_right : string;
  style_bottom : string;
  style_border : string
}.

Inductive Event : Type :=
| ConsoleError (text : string) (args : list string)
| ConsoleErrorObj (e : JsError)
| ConsoleLog (text : string)
| Call_preparePlatform
| Call_loadOlm
| Call_loadConfig
| Call_setupLogStorage
| Call_loadLanguage
| Call_loadTheme
| Call_loadSkin
| Call_loadApp (arg : gmap string string)
| Call_showError (title : string) (messages : list JsVal)
| Call_showIncompatibleBrowser
| SetHref (url : string)
| SetItem (key value : string)
| DeleteBodyStyleHeight
| AppendChild (child : Iframe).

Record Store : Type := mkStore {
  (* window.Modernizr, when the global is there *)
  Modernizr : option JsObject;
  (* window.localStorage, when the browser has one *)
  localStorage : option (gmap string string);
  (* window.location.href, when the script has assigned it *)
  location_href : option string;
  (* the children appended to the element with id "matrixchat" *)
  matrixchat : list Iframe
}.

(** ** Completions and the monad of the script *)

(** How a piece of code ends: normally with a value, by a [return] out of
    the enclosing function, by a [throw] (also an [await] on a rejected
    promise), or never, at an [await] on a promise that does not settle. *)
Inductive Completion (R A : Type) : Type :=
| Normal (a : A)
| Return (r : R)
| Throw (e : JsError)
| Hang.
Arguments Normal {R A} a.
Arguments Return {R A} r.
Arguments Throw {R A} e.
Arguments Hang {R A}.

Record Run (R A : Type) : Type := mkRun {
  completion : Completion R A;
  store : Store;
  events : list Event
}.
Arguments mkRun {R A}.
Arguments completion {R A}.
Arguments store {R A}.
Arguments events {R A}.

Definition M (R A : Type) : Type := Store -> Run R A.

Definition ret {R A} (a : A) : M R A := fun st => mkRun (Normal a) st [].

Definition bind {R A B} (c : M R A) (k : A -> M R B) : M R B := fun st =>
  let r := c st in
  match completion r with
  | Normal a =>
      let r' := k a (store r) in
      mkRun (completion r') (store r') (events r ++ events r')
  | Return v => mkRun (Return v) (store r) (events r)
  | Throw e => mkRun (Throw e) (store r) (events r)
  | Hang => mkRun Hang (store r) (events r)
  end.

Declare Scope js_scope.
Delimit Scope js_scope with js.
Notation "x <- c ;; k" := (bind c (fun x => k))
  (at level 100, c at next level, right associativity) : js_scope.
Notation "c ;; k" := (bind c (fun _ => k))
  (at level 100, right associativity) : js_scope.
Open Scope js_scope.

(** [return v;] and [throw e;] *)
Definition return_ {R A} (v : R) : M R A := fun st => mkRun (Return v) st [].
Definition throw {R A} (e : JsError) : M R A := fun st => mkRun (Throw e) st [].

(** [e.property] on a caught value: the property of an object, a TypeError
    on [null] and [undefined]. *)
Definition read {R A} (e : JsError) (property : string)
    (field : ErrorObject -> A) : M R A :=
  match e with
  | ThrownNullish n => throw (TypeError n property)
  | ThrownObject o => ret (field o)
  end.

(** [try { body } catch (e) { handler }] *)
Definition try_catch {R A} (body : M R A) (handler : JsError -> M R A) : M R A :=
  fun st =>
    let r := body st in
    match completion r with
    | Throw e =>
        let r' := handler e (store r) in
        mkRun (completion r') (store r') (events r ++ events r')
    | _ => r
    end.

(** [await p] *)
Definition await {R A} (p : Promise A) : M R A := fun st =>
  match p with
  | Fulfilled a => mkRun (Normal a) st []
  | Rejected e => mkRun (Throw e) st []
  | Pending => mkRun Hang st []
  end.

Definition emit {R} (ev : Event) : M R unit := fun st => mkRun (Normal tt) st [ev].

(** A call of a collaborator's function. *)
Definition call {R A} (ev : Event) (result : CallResult A) : M R A := fun st =>
  match result with
  | Returns a => mkRun (Normal a) st [ev]
  | Raises e => mkRun (Throw e) st [ev]
  end.

(** A call of a function of this file: a [return v] of the body, or the
    value the body ends with, is the value of the call. *)
Definition function_call {R A} (body : M A A) : M R A := fun st =>
  let r := body st in
  match completion r with
  | Normal a | Return a => mkRun (Normal a) (store r) (events r)
  | Throw e => mkRun (Throw e) (store r) (events r)
  | Hang => mkRun Hang (store r) (events r)
  end.

(** What an [async] function returns: [undefined] or a promise, which the
    function's own promise then follows. *)
Inductive RetVal : Type :=
| RetUndefined
| RetPromise (p : Promise JsVal).

Definition promise_of {A} (c : Completion RetVal A) : Promise JsVal :=
  match c with
  | Normal _ | Return RetUndefined => Fulfilled VUndefined
  | Return (RetPromise p) => p
  | Throw e => Rejected e
  | Hang => Pending
  end.

(** A call of an [async] function: it never throws, and the promise it
    returns has the terminal state the body's completion gives it. *)
Definition async {R A} (body : M RetVal A) : M R (Promise JsVal) := fun st =>
  let r := body st in
  mkRun (Normal (promise_of (completion r))) (store r) (events r).

(** [p.catch(handler)] as the last statement of the script. *)
Definition promise_catch {R} (p : Promise JsVal) (handler : JsError -> M R unit)
  : M R unit :=
  match p with
  | Rejected e => handler e
  | _ => ret tt
  end.

Definition get_Modernizr {R} : M R (option JsObject) := fun st =>
  mkRun (Normal (Modernizr st)) st [].
Definition set_Modernizr {R} (o : JsObject) : M R unit := fun st =>
  mkRun (Normal tt)
    (mkStore (Some o) (localStorage st) (location_href st) (matrixchat st)) [].
Definition get_localStorage {R} : M R (option (gmap string string)) := fun st =>
  mkRun (Normal (localStorage st)) st [].

(** [localStorage.getItem(key)]: the string stored, or [null]. *)
Definition getItem (ls : gmap string string) (key : string) : JsVal :=
  match ls !! key with
  | Some s => VString s
  | None => VNull
  end.

(** [window.localStorage.setItem(key, value)] *)
Definition setItem {R} (key value : string) : M R unit := fun st =>
  mkRun (Normal tt)
    (mkStore (Modernizr st) (<[key := value]> <$> localStorage st)
       (location_href st) (matrixchat st))
    [SetItem key value].

(** [window.location.href = url] *)
Definition set_href {R} (url : string) : M R unit := fun st =>
  mkRun (Normal tt)
    (mkStore (Modernizr st) (localStorage st) (Some url) (matrixchat st))
    [SetHref url].

(** [document.getElementById("matrixchat").appendChild(child)] *)
Definition appendChild {R} (child : Iframe) : M R unit := fun st =>
  mkRun (Normal tt)
    (mkStore (Modernizr st) (localStorage st) (location_href st)
       (matrixchat st ++ [child]))
    [AppendChild child].

(** ** The script *)

(** *** settled (lines 32-40) *)

Fixpoint settled_loop (promises : list (Promise JsVal)) : M RetVal unit :=
  match promises with
  | [] => ret tt
  | prom :: rest =>
      try_catch (await prom ;; ret tt) (fun e => emit (ConsoleErrorObj e)) ;;
      settled_loop rest
  end.

Definition settled {R} (promises : list (Promise JsVal)) : M R (Promise JsVal) :=
  async (settled_loop promises).

(** *** checkBrowserFeatures (lines 42-81) *)

Definition msg_modernizr_missing : string :=
  "Cannot check features - Modernizr global is missing.".
Definition msg_no_results : string :=
  "Looked for feature '%s' but Modernizr has no results for this. " +:+
  "Has it been configured correctly?".
Definition msg_missing_feature : string := "Browser missing feature: '%s'".

(** The three tests registered on top of the Modernizr build. *)
Definition test_promiseprototypefinally (env : Env) : JsVal :=
  VBool (is_function (Promise_prototype_finally env)).
Definition test_regexpdotall (env : Env) : JsVal :=
  match RegExp_prototype env with
  | None => VUndefined
  | Some getter => js_and VObject (VBool (truthy getter))
  end.
Definition test_objectfromentries (env : Env) : JsVal :=
  VBool (is_function (Object_fromEntries env)).

(** The loop over [featureList] of lines 66-79, with the flag it toggles. *)
Fixpoint feature_loop (modernizr : JsObject) (featureList : list string)
    (featureComplete : bool) : M bool bool :=
  match featureList with
  | [] => ret featureComplete
  | feature :: rest =>
      (if is_undefined (get modernizr feature) then
         emit (ConsoleError msg_no_results [feature]) ;;
         return_ false
       else ret tt) ;;
      featureComplete <-
        (if is_false (get modernizr feature) then
           emit (ConsoleError msg_missing_feature [feature]) ;;
           ret false
         else ret featureComplete) ;;
      feature_loop modernizr rest featureComplete
  end.

(** Lines 52-61: the Modernizr object once the three tests are added. *)
Definition addTests (env : Env) (o : JsObject) : JsObject :=
  let o := addTest env "promiseprototypefinally"
             (test_promiseprototypefinally env) o in
  let o := addTest env "regexpdotall" (test_regexpdotall env) o in
  addTest env "objectfromentries" (test_objectfromentries env) o.

Definition checkBrowserFeatures_body (env : Env) : M bool bool :=
  modernizr <- get_Modernizr ;;
  match modernizr with
  | None =>
      emit (ConsoleError msg_modernizr_missing []) ;;
      return_ false
  | Some o =>
      set_Modernizr (addTests env o) ;;
      let featureList := Object_keys (addTests env o) in
      feature_loop (addTests env o) featureList true
  end.

Definition checkBrowserFeatures {R} (env : Env) : M R bool :=
  function_call (checkBrowserFeatures_body env).

(** *** start (lines 91-220) *)

(** The promises [start] keeps in local constants. *)
Record Loads : Type := mkLoads {
  loadOlmPromise : Promise JsVal;
  loadConfigPromise : Promise JsVal;
  persistLogsPromise : Promise JsVal;
  loadLanguagePromise : Promise JsVal;
  loadThemePromise : Promise JsVal;
  loadSkinPromise : Promise JsVal
}.

Definition mobile_guide : string := "mobile_guide/".
Definition redirect_opt_out : string := "element_mobile_redirect_to_guide=false".
Definition accept_key : string := "mx_accepts_unsupported_browser".

(** Lines 121-132: the redirect to the guide of the native apps. *)
Definition preventRedirect (fragparts : FragParts) : JsVal :=
  js_or (prop (params fragparts) "client_secret")
        (VBool (0 <? Z.of_nat (String.length (location fragparts)))).

Definition isIos (env : Env) : bool :=
  regex_test ["iPad"; "iPhone"; "iPod"] (userAgent env)
  && negb (truthy (MSStream env)).

Definition isAndroid (env : Env) : bool :=
  regex_test ["Android"] (userAgent env).

Definition redirectCheck (env : Env) (fragparts : FragParts) : M RetVal unit :=
  if negb (truthy (preventRedirect fragparts)) then
    if isIos env || isAndroid env then
      if indexOf (cookie env) redirect_opt_out =? -1 then
        set_href mobile_guide ;;
        return_ RetUndefined
      else ret tt
    else ret tt
  else ret tt.

(** Lines 134-152: start the loads, wait for the config, then for skin,
    theme and language to settle. *)
Definition preload (m : InitModule) : M RetVal Loads :=
  loadOlmPromise <- call Call_loadOlm (loadOlm m) ;;
  call Call_preparePlatform (preparePlatform m) ;;
  loadConfigPromise <- call Call_loadConfig (loadConfig m) ;;
  p <- settled [loadConfigPromise] ;; await p ;;
  persistLogsPromise <- call Call_setupLogStorage (setupLogStorage m) ;;
  loadLanguagePromise <- call Call_loadLanguage (loadLanguage m) ;;
  loadThemePromise <- call Call_loadTheme (loadTheme m) ;;
  loadSkinPromise <- call Call_loadSkin (loadSkin m) ;;
  p <- settled [loadSkinPromise; loadThemePromise; loadLanguagePromise] ;;
  await p ;;
  ret (mkLoads loadOlmPromise loadConfigPromise persistLogsPromise
         loadLanguagePromise loadThemePromise loadSkinPromise).

(** Lines 154-157: the verdict of the probe, or else the stored flag. *)
Definition acceptBrowser (supportedBrowser : bool)
    (ls : option (gmap string string)) : bool :=
  if negb supportedBrowser then
    match ls with
    | Some items => truthy (getItem items accept_key)
    | None => supportedBrowser
    end
  else supportedBrowser.

(** Lines 163-173: the promise that only the callback handed to
    [showIncompatibleBrowser] resolves, and the [await] on it. *)
Definition awaitUserAcceptance (m : InitModule) : M RetVal unit :=
  emit (ConsoleError "Browser is missing required features." []) ;;
  response <- call Call_showIncompatibleBrowser (showIncompatibleBrowser m) ;;
  match response with
  | UserAccepts =>
      ls <- get_localStorage ;;
      match ls with
      | Some _ => setItem accept_key "true"
      | None => ret tt
      end ;;
      emit (ConsoleLog "User accepts the compatibility risks.")
  | UserNever => await Pending
  end.

Definition compatibilityGate (m : InitModule) (supportedBrowser : bool)
  : M RetVal unit :=
  ls <- get_localStorage ;;
  if negb (acceptBrowser supportedBrowser ls) then awaitUserAcceptance m
  else ret tt.

Definition title_misconfigured : string := "Your Element is misconfigured".
Definition msg_invalid_json : string :=
  "Your Element configuration contains invalid JSON. " +:+
  "Please correct the problem and reload the page.".
Definition msg_parser : string := "The message from the parser is: %(message)s".
Definition msg_config_unloadable : string :=
  "Unable to load config file: please refresh the page to try again.".
Definition msg_unexpected : string :=
  "Unexpected error preparing the app. See console for details.".

(** [s || d] on strings. *)
Definition string_or (s d : string) : string :=
  if (s =? "")%string then d else s.

(** [error.err && error.err instanceof SyntaxError], once [error.err] is
    read. *)
Definition carries_syntax_error (error_err : option Cause) : option Cause :=
  match error_err with
  | Some cause => if isSyntaxError cause then Some cause else None
  | None => None
  end.

(** The lines of the [showError] call of lines 183-190. *)
Definition syntax_error_lines (m : InitModule) (cause : Cause) : list JsVal :=
  [ VString (_t m msg_invalid_json []);
    VString (_t m msg_parser
               [("message", string_or (message cause) (_t m "Invalid JSON" []))]) ].

(** Lines 176-193: the strict wait for the config. *)
Definition configHardCheck (m : InitModule) (loads : Loads) : M RetVal unit :=
  try_catch
    (await (loadConfigPromise loads) ;; ret tt)
    (fun error =>
       error_err <- read error "err" err ;;
       match carries_syntax_error error_err with
       | Some cause =>
           p <- call (Call_showError (_t m title_misconfigured [])
                        (syntax_error_lines m cause))
                  (showError m (_t m title_misconfigured [])
                     (syntax_error_lines m cause)) ;;
           return_ (RetPromise p)
       | None =>
           (* showError with a title only: no lines *)
           p <- call (Call_showError (_t m msg_config_unloadable []) [])
                  (showError m (_t m msg_config_unloadable []) []) ;;
           return_ (RetPromise p)
       end).

(** Lines 199-211: the loads that must have succeeded, then the app. *)
Definition appLoad (m : InitModule) (fragparts : FragParts) (loads : Loads)
  : M RetVal unit :=
  await (loadOlmPromise loads) ;;
  await (loadSkinPromise loads) ;;
  await (loadThemePromise loads) ;;
  await (loadLanguagePromise loads) ;;
  p <- settled [persistLogsPromise loads] ;; await p ;;
  p <- call (Call_loadApp (params fragparts)) (loadApp m (params fragparts)) ;;
  await p ;;
  ret tt.

(** The body of the [try] of lines 111-212. *)
Definition start_try (env : Env) (supportedBrowser : bool) (m : InitModule)
  : M RetVal unit :=
  p <- settled [rageshakePromise m] ;; await p ;;
  let fragparts := fragparts_of_location env in
  redirectCheck env fragparts ;;
  loads <- preload m ;;
  compatibilityGate m supportedBrowser ;;
  configHardCheck m loads ;;
  appLoad m fragparts loads.

(** The line shown by the handler of lines 212-219, once
    [err.translatedMessage] is read. *)
Definition unexpected_line (m : InitModule) (err_translatedMessage : JsVal)
  : JsVal :=
  js_or err_translatedMessage (VString (_t m msg_unexpected [])).

Definition start_catch (m : InitModule) (err : JsError) : M RetVal unit :=
  emit (ConsoleErrorObj err) ;;
  err_translatedMessage <- read err "translatedMessage" translatedMessage ;;
  let line := unexpected_line m err_translatedMessage in
  p <- call (Call_showError (_t m title_misconfigured []) [line])
         (showError m (_t m title_misconfigured []) [line]) ;;
  await p ;;
  ret tt.

Definition start_body (env : Env) (supportedBrowser : bool) : M RetVal unit :=
  m <- await (import_init env) ;;
  try_catch (start_try env supportedBrowser m) (start_catch m).

Definition start {R} (env : Env) (supportedBrowser : bool) : M R (Promise JsVal) :=
  async (start_body env supportedBrowser).

(** *** The handler of start().catch (lines 222-241) *)

Definition unable_to_load : string := "static/unable-to-load.html".
Definition incompatible_browser : string := "static/incompatible-browser.html".

Definition fatal_iframe (supportedBrowser : bool) : Iframe :=
  {| sandbox := "";
     src := if supportedBrowser then unable_to_load else incompatible_browser;
     style_width := "100%";
     style_height := "100%";
     style_position := "absolute";
     style_top := "0";
     style_left := "0";
     style_right := "0";
     style_bottom := "0";
     style_border := "0" |}.

Definition presentFatal {R} (supportedBrowser : bool) (err : JsError) : M R unit :=
  emit (ConsoleErrorObj err) ;;
  emit DeleteBodyStyleHeight ;;
  let iframe := fatal_iframe supportedBrowser in
  appendChild iframe.

(** *** The module: lines 83 and 222 *)

Definition script (env : Env) : M unit unit :=
  supportedBrowser <- checkBrowserFeatures env ;;
  p <- start env supportedBrowser ;;
  promise_catch p (presentFatal supportedBrowser).

(** ** Notions used by the statements *)

(** The acknowledgment as line 156 reads it: a non-empty string stored
    under [accept_key]. *)
Definition storedAcknowledgment (ls : option (gmap string string)) : bool :=
  match ls with
  | Some items => truthy (getItem items accept_key)
  | None => false
  end.

(** The diagnostics of the probe for the keys whose value is [false]. *)
Definition missing_features (o : JsObject) (keys : list string) : list string :=
  List.filter (fun key => is_false (get o key)) keys.

Definition missing_diagnostics (o : JsObject) (keys : list string) : list Event :=
  map (fun key => ConsoleError msg_missing_feature [key]) (missing_features o keys).

(** A promise that has reached a terminal state. *)
Definition settles {A} (p : Promise A) : Prop := p <> Pending.

(** What [settled] logs: the rejections, in the order of the list. *)
Definition rejection_log (promises : list (Promise JsVal)) : list Event :=
  flat_map (fun p => match p with
                     | Rejected e => [ConsoleErrorObj e]
                     | _ => []
                     end) promises.

(** The part of the [try] block before line 154, and the part before line
    176, each with the promises it has started as its value. *)
Definition before_gate (env : Env) (m : InitModule) : M RetVal Loads :=
  p <- settled [rageshakePromise m] ;; await p ;;
  redirectCheck env (fragparts_of_location env) ;;
  preload m.

Definition until_gate (env : Env) (supportedBrowser : bool) (m : InitModule)
  : M RetVal Loads :=
  loads <- before_gate env m ;;
  compatibilityGate m supportedBrowser ;;
  ret loads.

(** Every load that lines 178-207 wait for has succeeded (the log storage
    only has to settle). *)
Definition loads_succeed (loads : Loads) : Prop :=
  (exists v, loadConfigPromise loads = Fulfilled v)
  /\ (exists v, loadOlmPromise loads = Fulfilled v)
  /\ (exists v, loadSkinPromise loads = Fulfilled v)
  /\ (exists v, loadThemePromise loads = Fulfilled v)
  /\ (exists v, loadLanguagePromise loads = Fulfilled v)
  /\ settles (persistLogsPromise loads).

(** The error page for a rejected config load, by the kind of the
    rejection: the title, and the lines under it. *)
Definition config_error_title (m : InitModule) (o : ErrorObject) : string :=
  match err o with
  | Some cause =>
      if isSyntaxError cause then _t m "Your Element is misconfigured" []
      else _t m "Unable to load config file: please refresh the page to try again." []
  | None =>
      _t m "Unable to load config file: please refresh the page to try again." []
  end.

Definition config_error_lines (m : InitModule) (o : ErrorObject) : list JsVal :=
  match err o with
  | Some cause =>
      if isSyntaxError cause then
        [ VString
            (_t m ("Your Element configuration contains invalid JSON. " +:+
                   "Please correct the problem and reload the page.") []);
          VString
            (_t m "The message from the parser is: %(message)s"
               [("message",
                 if (message cause =? "")%string then _t m "Invalid JSON" []
                 else message cause)]) ]
      else []
  | None => []
  end.

(** The user has pressed the button of the incompatible-browser page. *)
Definition user_confirmed (env : Env) : Prop :=
  exists m, import_init env = Fulfilled m
            /\ showIncompatibleBrowser m = Returns UserAccepts.

Definition is_loadApp (ev : Event) : Prop := exists arg, ev = Call_loadApp arg.
Definition is_loader_call (ev : Event) : Prop :=
  ev = Call_loadConfig \/ ev = Call_loadOlm \/ ev = Call_preparePlatform
  \/ is_loadApp ev.
Definition is_SetHref (ev : Event) : Prop := exists url, ev = SetHref url.
Definition is_SetItem (ev : Event) : Prop := exists key value, ev = SetItem key value.

(** [c] keeps the invariant [I] of the store and emits only events in [P]. *)
Definition respects {R A} (I : Store -> Prop) (P : Event -> Prop) (c : M R A)
  : Prop :=
  forall st, I st -> I (store (c st)) /\ Forall P (events (c st)).

(** ** Notions used by the further statements *)


(** The value of a key is neither [undefined] nor [false]. *)
Definition feature_present (o : JsObject) (key : string) : Prop :=
  is_undefined (get o key) = false /\ is_false (get o key) = false.

(** The decision of lines 123-127: the page is sent to the mobile guide. *)
Definition redirects (env : Env) : bool :=
  negb (truthy (preventRedirect (fragparts_of_location env)))
  && (isIos env || isAndroid env)
  && (indexOf (cookie env) redirect_opt_out =? -1).

(** The calls of lines 134-149, in the order of the source. *)
Definition preload_calls : list Event :=
  [Call_loadOlm; Call_preparePlatform; Call_loadConfig; Call_setupLogStorage;
   Call_loadLanguage; Call_loadTheme; Call_loadSkin].

Definition is_preload_call (ev : Event) : bool :=
  match ev with
  | Call_loadOlm | Call_preparePlatform | Call_loadConfig
  | Call_setupLogStorage | Call_loadLanguage | Call_loadTheme
  | Call_loadSkin => true
  | _ => false
  end.


(** The exports of "./init" with another rageshake promise. *)
Definition with_rageshake (p : Promise JsVal) (m : InitModule) : InitModule :=
  {| rageshakePromise := p;
     setupLogStorage := setupLogStorage m;
     preparePlatform := preparePlatform m;
     loadOlm := loadOlm m;
     loadConfig := loadConfig m;
     loadSkin := loadSkin m;
     loadLanguage := loadLanguage m;
     loadTheme := loadTheme m;
     loadApp := loadApp m;
     showError := showError m;
     showIncompatibleBrowser := showIncompatibleBrowser m;
     _t := _t m |}.

(** The events of the prompt of lines 163-172, with and without storage. *)
Definition prompt_events (ls : option (gmap string string)) : list Event :=
  [ConsoleError "Browser is missing required features." [];
   Call_showIncompatibleBrowser]
  ++ match ls with
     | Some _ => [SetItem accept_key "true"]
     | None => []
     end
  ++ [ConsoleLog "User accepts the compatibility risks."].

(** The loaders of lines 134-149 other than the log storage return, and the
    promises they return are fulfilled. *)
Definition critical_loaders_succeed (m : InitModule) : Prop :=
  preparePlatform m = Returns tt
  /\ (exists v, loadOlm m = Returns (Fulfilled v))
  /\ (exists v, loadConfig m = Returns (Fulfilled v))
  /\ (exists v, loadLanguage m = Returns (Fulfilled v))
  /\ (exists v, loadTheme m = Returns (Fulfilled v))
  /\ (exists v, loadSkin m = Returns (Fulfilled v)).

(** [setupLogStorage] returns a promise that settles. *)
Definition log_storage_settles (m : InitModule) : Prop :=
  exists logs, setupLogStorage m = Returns logs /\ settles logs.

(** The events of [c] that [f] selects are an initial segment of [xs], and
    all of [xs] when [c] completes normally. *)
Definition in_order {R A} (f : Event -> bool) (xs : list Event) (c : M R A)
  : Prop :=
  forall st,
    (exists n, List.filter f (events (c st)) = firstn n xs)
    /\ (forall a, completion (c st) = Normal a ->
                  List.filter f (events (c st)) = xs).

(** The page load with other exports of "./init". *)
Definition with_init (m : InitModule) (env : Env) : Env :=
  {| Promise_prototype_finally := Promise_prototype_finally env;
     RegExp_prototype := RegExp_prototype env;
     Object_fromEntries := Object_fromEntries env;
     addTest := addTest env;
     userAgent := userAgent env;
     MSStream := MSStream env;
     cookie := cookie env;
     fragparts_of_location := fragparts_of_location env;
     import_init := Fulfilled m |}.


(** Every [return] out of [c] returns a value in [P]. *)
Definition returns {R A} (P : R -> Prop) (c : M R A) : Prop :=
  forall st r, completion (c st) = Return r -> P r.

(** ** Sample page loads *)

Module Samples.

Definition ok : CallResult (Promise JsVal) := Returns (Fulfilled VUndefined).

(** A translation function that keeps the key and appends the values
    substituted into it. *)
Definition tr (key : string) (subst : list (string * string)) : string :=
  fold_left (fun acc kv => acc +:+ " [" +:+ snd kv +:+ "]") subst key.

(** Every load succeeds and the user accepts. *)
Definition init_ok : InitModule :=
  {| rageshakePromise := Fulfilled VUndefined;
     setupLogStorage := ok;
     preparePlatform := Returns tt;
     loadOlm := ok;
     loadConfig := ok;
     loadSkin := ok;
     loadLanguage := ok;
     loadTheme := ok;
     loadApp := fun _ => ok;
     showError := fun _ _ => ok;
     showIncompatibleBrowser := Returns UserAccepts;
     _t := tr |}.

(** Modelled from the spec: the library's "API to register additional named
    tests before evaluation" ("./modernizr" is not among the sources); the
    value of the test is stored under its name, after the keys already
    there, unless the name is taken.  The statements below hold for any
    [addTest]; this one only serves the sample page loads. *)
Definition add_test (name : string) (v : JsVal) (o : JsObject) : JsObject :=
  match find (fun kv => (fst kv =? name)%string) o with
  | Some _ => o
  | None => o ++ [(name, v)]
  end.

Definition page (ua : string) (msstream : JsVal) (frag : FragParts)
    (m : InitModule) : Env :=
  {| Promise_prototype_finally := VFunction;
     RegExp_prototype := Some VFunction;
     Object_fromEntries := VFunction;
     addTest := add_test;
     userAgent := ua;
     MSStream := msstream;
     cookie := "";
     fragparts_of_location := frag;
     import_init := Fulfilled m |}.

Definition desktop_ua : string := "Mozilla/5.0 (X11; Linux x86_64) Firefox/89.0".
Definition iphone_ua : string := "Mozilla/5.0 (iPhone; CPU iPhone OS 14_0 like Mac OS X)".
Definition android_ua : string := "Mozilla/5.0 (Linux; Android 10) Chrome/90.0 Mobile".

Definition no_fragment : FragParts := {| params := ∅; location := "" |}.

Definition desktop : Env := page desktop_ua VUndefined no_fragment init_ok.

Definition store_of (modernizr : option JsObject)
    (ls : option (gmap string string)) : Store :=
  {| Modernizr := modernizr; localStorage := ls;
     location_href := None; matrixchat := [] |}.

Definition modern : JsObject := [("flexbox", VBool true); ("svg", VBool true)].
Definition dated : JsObject :=
  [("flexbox", VBool false); ("svg", VBool true); ("cors", VBool false)].
Definition misconfigured : JsObject :=
  [("flexbox", VBool false); ("svg", VUndefined); ("cors", VBool false)].

Definition boom (what : string) : JsError :=
  ThrownObject {| description := what; err := None;
                  translatedMessage := VUndefined |}.

(** The exports of "./init" with another config load, another
    [showError] and another user. *)
Definition init_with (config : CallResult (Promise JsVal))
    (show : string -> list JsVal -> CallResult (Promise JsVal))
    (user : CallResult UserResponse) : InitModule :=
  {| rageshakePromise := Fulfilled VUndefined;
     setupLogStorage := ok;
     preparePlatform := Returns tt;
     loadOlm := ok;
     loadConfig := config;
     loadSkin := ok;
     loadLanguage := ok;
     loadTheme := ok;
     loadApp := fun _ => ok;
     showError := show;
     showIncompatibleBrowser := user;
     _t := tr |}.

Definition init_user_never : InitModule :=
  init_with ok (fun _ _ => ok) (Returns UserNever).

Definition bad_json_object : ErrorObject :=
  {| description := "config.json";
     err := Some {| isSyntaxError := true;
                    message := "Unexpected token } in JSON at position 42" |};
     translatedMessage := VUndefined |}.

Definition bad_json : JsError := ThrownObject bad_json_object.

Definition init_bad_json : InitModule :=
  init_with (Returns (Rejected bad_json)) (fun _ _ => ok) (Returns UserAccepts).

(** The config cannot be fetched and the error view cannot be loaded. *)
Definition init_offline : InitModule :=
  init_with (Returns (Rejected (boom "config.json: 404")))
            (fun _ _ => Returns (Rejected (boom "ErrorView chunk failed")))
            (Returns UserAccepts).




(** The chunk of "./init" cannot be loaded. *)
Definition page_without_init : Env :=
  {| Promise_prototype_finally := VFunction;
     RegExp_prototype := Some VFunction;
     Object_fromEntries := VFunction;
     addTest := add_test;
     userAgent := desktop_ua;
     MSStream := VUndefined;
     cookie := "";
     fragparts_of_location := {| params := ∅; location := "" |};
     import_init := Rejected (boom "Loading chunk init failed") |}.

(** The config load rejects with [undefined]; the promise of loadOlm
    rejects with [null]. *)
Definition init_config_undefined : InitModule :=
  init_with (Returns (Rejected (ThrownNullish Undefined))) (fun _ _ => ok)
            (Returns UserAccepts).


Definition secret_fragment (secret : string) : FragParts :=
  {| params := <["client_secret" := secret]> ∅; location := "" |}.

Definition room_fragment : FragParts :=
  {| params := ∅; location := "/room/!abc:example.org" |}.

End Samples.

(** ** Laws of the monad *)

Section Laws.
Context {R A B : Type}.
Implicit Types (c : M R A) (k : A -> M R B).

Lemma bind_run c k st :
  bind c k st =
    match completion (c st) with
    | Normal a =>
        mkRun (completion (k a (store (c st)))) (store (k a (store (c st))))
              (events (c st) ++ events (k a (store (c st))))
    | Return v => mkRun (Return v) (store (c st)) (events (c st))
    | Throw e => mkRun (Throw e) (store (c st)) (events (c st))
    | Hang => mkRun Hang (store (c st)) (events (c st))
    end.
Proof. reflexivity. Qed.

Lemma bind_ext c k k' st :
  (forall a st', k a st' = k' a st') -> bind c k st = bind c k' st.
Proof.
  intros Hk. rewrite !bind_run. destruct (completion (c st)); auto.
  now rewrite Hk.
Qed.

Lemma bind_Normal_inv c k st b :
  completion (bind c k st) = Normal b ->
  exists a, completion (c st) = Normal a
            /\ completion (k a (store (c st))) = Normal b
            /\ store (bind c k st) = store (k a (store (c st)))
            /\ events (bind c k st) = events (c st) ++ events (k a (store (c st))).
Proof.
  rewrite bind_run. destruct (completion (c st)) as [a| | |]; cbn; try discriminate.
  intros Hb. exists a. auto.
Qed.

Lemma bind_events_In c k st ev :
  In ev (events (bind c k st)) ->
  In ev (events (c st))
  \/ exists a, completion (c st) = Normal a /\ In ev (events (k a (store (c st)))).
Proof.
  rewrite bind_run. destruct (completion (c st)) as [a| | |]; cbn; auto.
  rewrite in_app_iff. intros [H|H]; eauto.
Qed.
End Laws.

Lemma bind_assoc {R A B C} (c : M R A) (k : A -> M R B) (h : B -> M R C) st :
  bind (bind c k) h st = bind c (fun a => bind (k a) h) st.
Proof.
  rewrite (bind_run (bind c k)), (bind_run c (fun a => bind (k a) h)), (bind_run c k).
  destruct (completion (c st)) as [a| | |]; cbn; auto.
  rewrite bind_run.
  destruct (completion (k a (store (c st)))); cbn; auto.
  now rewrite app_assoc.
Qed.

(** ** Invariants of the store and of the events *)

Section Respects.
Context {R : Type} (I : Store -> Prop) (P : Event -> Prop).

Lemma respects_ret {A} (a : A) : respects (R:=R) I P (ret a).
Proof. intros st H. cbn. auto. Qed.

Lemma respects_return {A} v : respects (R:=R) (A:=A) I P (return_ v).
Proof. intros st H. cbn. auto. Qed.

Lemma respects_throw {A} e : respects (R:=R) (A:=A) I P (throw e).
Proof. intros st H. cbn. auto. Qed.

Lemma respects_read {A} e property (field : ErrorObject -> A) :
  respects (R:=R) I P (read e property field).
Proof. intros st H. destruct e; cbn; auto. Qed.

Lemma respects_await {A} (p : Promise A) : respects (R:=R) I P (await p).
Proof. intros st H. destruct p; cbn; auto. Qed.

Lemma respects_emit ev : P ev -> respects (R:=R) I P (emit ev).
Proof. intros Hev st H. cbn. auto. Qed.

Lemma respects_call {A} ev (result : CallResult A) :
  P ev -> respects (R:=R) I P (call ev result).
Proof. intros Hev st H. destruct result; cbn; auto. Qed.

Lemma respects_get_localStorage : respects (R:=R) I P get_localStorage.
Proof. intros st H. cbn. auto. Qed.

Lemma respects_get_Modernizr : respects (R:=R) I P get_Modernizr.
Proof. intros st H. cbn. auto. Qed.

Lemma respects_bind {A B} (c : M R A) (k : A -> M R B) :
  respects I P c -> (forall a, respects I P (k a)) -> respects I P (bind c k).
Proof.
  intros Hc Hk st H. destruct (Hc st H) as [Hst Hev].
  rewrite bind_run. destruct (completion (c st)) as [a| | |]; cbn; auto.
  destruct (Hk a _ Hst) as [Hst' Hev']. split; auto.
  apply Forall_app; auto.
Qed.

Lemma respects_try_catch {A} (body : M R A) handler :
  respects I P body -> (forall e, respects I P (handler e)) ->
  respects I P (try_catch body handler).
Proof.
  intros Hc Hk st H. destruct (Hc st H) as [Hst Hev].
  unfold try_catch. destruct (completion (body st)) as [a| |e|]; cbn; auto.
  destruct (Hk e _ Hst) as [Hst' Hev']. split; auto.
  apply Forall_app; auto.
Qed.
End Respects.

Lemma respects_async {R A} I P (body : M RetVal A) :
  respects I P body -> respects (R:=R) I P (async body).
Proof. intros Hb st H. exact (Hb st H). Qed.

Lemma respects_function_call {R A} I P (body : M A A) :
  respects I P body -> respects (R:=R) I P (function_call body).
Proof.
  intros Hb st H. destruct (Hb st H) as [Hst Hev].
  unfold function_call. destruct (completion (body st)); cbn; auto.
Qed.

Lemma respects_settled_loop I P promises :
  (forall e, P (ConsoleErrorObj e)) -> respects I P (settled_loop promises).
Proof.
  intros HP. induction promises as [|p ps IH]; cbn [settled_loop].
  - apply respects_ret.
  - apply respects_bind; [|auto].
    apply respects_try_catch.
    + apply respects_bind; [apply respects_await | intros; apply respects_ret].
    + intros e. apply respects_emit, HP.
Qed.

Lemma respects_settled {R} I P promises :
  (forall e, P (ConsoleErrorObj e)) -> respects (R:=R) I P (settled promises).
Proof. intros HP. apply respects_async, respects_settled_loop, HP. Qed.

Section RespectsStore.
Context {R : Type} (I : Store -> Prop) (P : Event -> Prop).

Lemma respects_set_href url :
  (forall st, I st ->
     I (mkStore (Modernizr st) (localStorage st) (Some url) (matrixchat st))) ->
  P (SetHref url) -> respects (R:=R) I P (set_href url).
Proof. intros HI Hev st H. cbn. auto. Qed.

Lemma respects_setItem key value :
  (forall st, I st ->
     I (mkStore (Modernizr st) (<[key := value]> <$> localStorage st)
          (location_href st) (matrixchat st))) ->
  P (SetItem key value) -> respects (R:=R) I P (setItem key value).
Proof. intros HI Hev st H. cbn. auto. Qed.

Lemma respects_set_Modernizr o :
  (forall st, I st ->
     I (mkStore (Some o) (localStorage st) (location_href st) (matrixchat st))) ->
  respects (R:=R) I P (set_Modernizr o).
Proof. intros HI st H. cbn. auto. Qed.

Lemma respects_appendChild child :
  (forall st, I st ->
     I (mkStore (Modernizr st) (localStorage st) (location_href st)
          (matrixchat st ++ [child]))) ->
  P (AppendChild child) -> respects (R:=R) I P (appendChild child).
Proof. intros HI Hev st H. cbn. auto. Qed.
End RespectsStore.

(** Decompose a computation along its structure; what is left are the
    side conditions on single events and single updates of the store. *)
Ltac respects_step :=
  lazymatch goal with
  | |- respects _ _ (bind _ _) => apply respects_bind; [|intros]
  | |- respects _ _ (try_catch _ _) => apply respects_try_catch; [|intros]
  | |- respects _ _ (ret _) => apply respects_ret
  | |- respects _ _ (return_ _) => apply respects_return
  | |- respects _ _ (throw _) => apply respects_throw
  | |- respects _ _ (read _ _ _) => apply respects_read
  | |- respects _ _ (await _) => apply respects_await
  | |- respects _ _ (emit _) => apply respects_emit
  | |- respects _ _ (call _ _) => apply respects_call
  | |- respects _ _ get_localStorage => apply respects_get_localStorage
  | |- respects _ _ get_Modernizr => apply respects_get_Modernizr
  | |- respects _ _ (settled _) => apply respects_settled; intros
  | |- respects _ _ (async _) => apply respects_async
  | |- respects _ _ (function_call _) => apply respects_function_call
  | |- respects _ _ (set_href _) => apply respects_set_href
  | |- respects _ _ (setItem _ _) => apply respects_setItem
  | |- respects _ _ (set_Modernizr _) => apply respects_set_Modernizr
  | |- respects _ _ (appendChild _) => apply respects_appendChild
  | |- respects _ _ (if ?b then _ else _) => destruct b
  | |- respects _ _ (match ?x with _ => _ end) => destruct x
  end.

Ltac respects_steps := repeat respects_step.

(** ** The feature probe *)

Section Probe.
Variable o : JsObject.

Lemma feature_loop_defined keys : forall featureComplete st,
  Forall (fun key => is_undefined (get o key) = false) keys ->
  feature_loop o keys featureComplete st =
    mkRun (Normal (featureComplete
                   && forallb (fun key => negb (is_false (get o key))) keys))
          st (missing_diagnostics o keys).
Proof.
  induction keys as [|key keys IH]; intros fc st Hdef.
  - simpl. unfold ret. now rewrite andb_true_r.
  - inversion Hdef as [|? ? Hkey Hrest]; subst.
    unfold missing_diagnostics, missing_features.
    cbn [feature_loop List.filter forallb]. rewrite Hkey.
    destruct (is_false (get o key)) eqn:Hfalse;
      unfold bind; cbn; rewrite IH by assumption; cbn.
    + now rewrite andb_false_r.
    + reflexivity.
Qed.

Lemma feature_loop_undefined pre key post : forall featureComplete st,
  Forall (fun key => is_undefined (get o key) = false) pre ->
  is_undefined (get o key) = true ->
  feature_loop o (pre ++ key :: post) featureComplete st =
    mkRun (Return false) st
          (missing_diagnostics o pre ++ [ConsoleError msg_no_results [key]]).
Proof.
  induction pre as [|k pre IH]; intros fc st Hdef Hundef.
  - cbn [app feature_loop]. rewrite Hundef. reflexivity.
  - inversion Hdef as [|? ? Hk Hrest]; subst.
    unfold missing_diagnostics, missing_features.
    cbn [app feature_loop List.filter]. rewrite Hk.
    destruct (is_false (get o k)) eqn:Hfalse;
      unfold bind; cbn; rewrite IH by assumption; reflexivity.
Qed.
End Probe.

Lemma checkBrowserFeatures_run {R} env st :
  checkBrowserFeatures (R:=R) env st =
    match Modernizr st with
    | None => mkRun (Normal false) st [ConsoleError msg_modernizr_missing []]
    | Some o =>
        let r := feature_loop (addTests env o) (Object_keys (addTests env o)) true
                   (mkStore (Some (addTests env o)) (localStorage st)
                      (location_href st) (matrixchat st)) in
        mkRun (match completion r with
               | Normal b | Return b => Normal b
               | Throw e => Throw e
               | Hang => Hang
               end) (store r) (events r)
    end.
Proof.
  unfold checkBrowserFeatures, function_call, checkBrowserFeatures_body.
  rewrite bind_run. cbn. destruct (Modernizr st) as [o|]; cbn; [|reflexivity].
  destruct (completion (feature_loop _ _ _ _)); reflexivity.
Qed.

(** C2: when Modernizr is there and, once the three tests are added, no key
    has the value [undefined] and at least one has the value [false], the
    probe returns [false] and its diagnostics are exactly one "Browser
    missing feature" line for each key whose value is [false], in the order
    of [Object.keys]: the loop does not stop at the first of them. *)
Theorem probe_reports_every_missing_feature (env : Env) (st : Store) (o : JsObject) :
  Modernizr st = Some o ->
  Forall (fun key => is_undefined (get (addTests env o) key) = false)
         (Object_keys (addTests env o)) ->
  Exists (fun key => get (addTests env o) key = VBool false)
         (Object_keys (addTests env o)) ->
  let r := checkBrowserFeatures (R:=unit) env st in
  completion r = Normal false
  /\ events r =
       map (fun key => ConsoleError msg_missing_feature [key])
           (List.filter (fun key => is_false (get (addTests env o) key))
                        (Object_keys (addTests env o)))
  /\ forall key, In key (Object_keys (addTests env o)) ->
       get (addTests env o) key = VBool false ->
       In (ConsoleError msg_missing_feature [key]) (events r).
Proof.
  intros HM Hdef Hex r. subst r.
  rewrite checkBrowserFeatures_run, HM. cbv zeta.
  rewrite feature_loop_defined by assumption. cbn.
  assert (Hall : forallb (fun key => negb (is_false (get (addTests env o) key)))
                   (Object_keys (addTests env o)) = false).
  { apply List.Exists_exists in Hex as (key & Hin & Hkey).
    apply not_true_is_false. intros Hall.
    rewrite forallb_forall in Hall. specialize (Hall key Hin).
    rewrite Hkey in Hall. discriminate. }
  rewrite Hall. repeat split.
  intros key Hin Hkey. unfold missing_diagnostics, missing_features.
  apply in_map_iff. exists key. split; [reflexivity|].
  apply filter_In. split; [assumption|]. now rewrite Hkey.
Qed.

Lemma probe_reports_every_missing_feature_witness :
  let st := Samples.store_of (Some Samples.dated) None in
  let r := checkBrowserFeatures (R:=unit) Samples.desktop st in
  completion r = Normal false
  /\ events r = [ConsoleError msg_missing_feature ["flexbox"];
                 ConsoleError msg_missing_feature ["cors"]].
Proof.
  intros st r.
  destruct (probe_reports_every_missing_feature Samples.desktop st Samples.dated)
    as (Hc & Hev & _).
  - reflexivity.
  - vm_compute. repeat constructor.
  - vm_compute. apply Exists_cons_hd. reflexivity.
  - split; [exact Hc | exact Hev].
Defined.

(** C3: a key whose value is [undefined] makes the probe return [false] at
    once: the diagnostics are those of the keys before it followed by the
    "no results" line, whatever the keys after it are; when the Modernizr
    global is missing the probe returns [false] with the "global is missing"
    line and touches nothing; the three diagnostics are different texts. *)
Theorem probe_stops_when_misconfigured (env : Env) (st : Store) :
  (forall o pre key post,
      Modernizr st = Some o ->
      Object_keys (addTests env o) = pre ++ key :: post ->
      Forall (fun k => is_undefined (get (addTests env o) k) = false) pre ->
      get (addTests env o) key = VUndefined ->
      let r := checkBrowserFeatures (R:=unit) env st in
      completion r = Normal false
      /\ events r = missing_diagnostics (addTests env o) pre
                    ++ [ConsoleError msg_no_results [key]])
  /\ (Modernizr st = None ->
      checkBrowserFeatures (R:=unit) env st =
        mkRun (Normal false) st [ConsoleError msg_modernizr_missing []])
  /\ msg_no_results <> msg_missing_feature
  /\ msg_modernizr_missing <> msg_missing_feature
  /\ msg_modernizr_missing <> msg_no_results.
Proof.
  split; [|split].
  - intros o pre key post HM Hkeys Hdef Hundef r. subst r.
    rewrite checkBrowserFeatures_run, HM. cbv zeta. rewrite Hkeys.
    rewrite (feature_loop_undefined _ pre key post) by (auto; now rewrite Hundef).
    cbn. auto.
  - intros HM. now rewrite checkBrowserFeatures_run, HM.
  - repeat split; discriminate.
Qed.

Lemma probe_stops_when_misconfigured_witness :
  (let r := checkBrowserFeatures (R:=unit) Samples.desktop
              (Samples.store_of (Some Samples.misconfigured) None) in
   completion r = Normal false
   /\ events r = [ConsoleError msg_missing_feature ["flexbox"];
                  ConsoleError msg_no_results ["svg"]])
  /\ checkBrowserFeatures (R:=unit) Samples.desktop (Samples.store_of None None) =
       mkRun (Normal false) (Samples.store_of None None)
             [ConsoleError msg_modernizr_missing []].
Proof.
  pose proof (probe_stops_when_misconfigured Samples.desktop
                (Samples.store_of (Some Samples.misconfigured) None)) as (H1 & _).
  pose proof (probe_stops_when_misconfigured Samples.desktop
                (Samples.store_of None None)) as (_ & H2 & _).
  split.
  - apply (H1 Samples.misconfigured ["flexbox"] "svg"
              ["cors"; "promiseprototypefinally"; "regexpdotall"; "objectfromentries"]).
    + reflexivity.
    + reflexivity.
    + repeat constructor.
    + reflexivity.
  - apply H2. reflexivity.
Defined.

(** ** The helper settled *)

Lemma settled_loop_settles promises st :
  Forall settles promises ->
  settled_loop promises st = mkRun (Normal tt) st (rejection_log promises).
Proof.
  induction promises as [|p ps IH]; intros Hall; [reflexivity|].
  inversion Hall as [|? ? Hp Hps]; subst.
  cbn [settled_loop rejection_log flat_map]. rewrite bind_run.
  destruct p as [v|e|]; [| |now elim Hp]; cbn; now rewrite IH.
Qed.

Lemma settled_loop_never_throws promises st :
  completion (settled_loop promises st) = Normal tt
  \/ completion (settled_loop promises st) = Hang.
Proof.
  revert st. induction promises as [|p ps IH]; intros st; [now left|].
  cbn [settled_loop]. rewrite bind_run.
  destruct p as [v|e|]; cbn; auto.
Qed.

(** C4, amended: for every list of promises, [settled] awaits them in the
    order of the list and its own promise is never rejected; when every
    promise of the list settles, [settled] fulfills, changes nothing and has
    logged exactly the rejections, in the order of the list.  For a list
    whose first and third promises reject and whose second fulfills, both
    rejections are logged in that order and awaiting the second promise
    afterwards still gives its value. *)
Theorem settled_fulfills_when_all_settle (promises : list (Promise JsVal))
    (st : Store) :
  (forall e, completion (settled (R:=RetVal) promises st) <> Normal (Rejected e))
  /\ (Forall settles promises ->
      settled (R:=RetVal) promises st =
        mkRun (Normal (Fulfilled VUndefined)) st (rejection_log promises))
  /\ (forall e1 v e3,
        promises = [Rejected e1; Fulfilled v; Rejected e3] ->
        (p <- settled promises ;; await p ;; await (nth 1 promises Pending)) st =
          mkRun (R:=RetVal) (Normal v) st [ConsoleErrorObj e1; ConsoleErrorObj e3]).
Proof.
  split; [|split].
  - intros e. unfold settled, async. cbn.
    destruct (settled_loop_never_throws promises st) as [H|H]; rewrite H;
      discriminate.
  - intros Hall. unfold settled, async.
    now rewrite settled_loop_settles.
  - intros e1 v e3 ->. reflexivity.
Qed.

Lemma settled_fulfills_when_all_settle_witness :
  let tasks := [Rejected (Samples.boom "T1"); Fulfilled (VString "T2");
                Rejected (Samples.boom "T3")] in
  let st := Samples.store_of None None in
  settled (R:=RetVal) tasks st =
    mkRun (Normal (Fulfilled VUndefined)) st
          [ConsoleErrorObj (Samples.boom "T1"); ConsoleErrorObj (Samples.boom "T3")]
  /\ (p <- settled tasks ;; await p ;; await (nth 1 tasks Pending)) st =
       mkRun (R:=RetVal) (Normal (VString "T2")) st
             [ConsoleErrorObj (Samples.boom "T1"); ConsoleErrorObj (Samples.boom "T3")].
Proof.
  intros tasks st.
  destruct (settled_fulfills_when_all_settle tasks st) as (_ & Hall & Hthree).
  split.
  - apply Hall. repeat constructor; discriminate.
  - apply (Hthree (Samples.boom "T1") (VString "T2") (Samples.boom "T3")).
    reflexivity.
Defined.

(** C4 as stated fails: with a promise that never settles in the list,
    [settled] logs the rejection before it and then never fulfills. *)
Lemma settled_hangs_on_pending_task :
  let tasks := [Rejected (Samples.boom "T1"); Pending; Fulfilled VUndefined] in
  let r := settled (R:=RetVal) tasks (Samples.store_of None None) in
  completion r = Normal Pending
  /\ events r = [ConsoleErrorObj (Samples.boom "T1")]
  /\ ~ exists v, completion r = Normal (Fulfilled v).
Proof.
  cbn. repeat split. intros [v Hv]. discriminate.
Qed.

(** ** The orchestrator, stage by stage *)

Lemma respects_read_localStorage {R A} (I : Store -> Prop) (P : Event -> Prop)
    (k : option (gmap string string) -> M R A) :
  (forall ls, (exists st, I st /\ localStorage st = ls) -> respects I P (k ls)) ->
  respects I P (bind get_localStorage k).
Proof.
  intros Hk st H. rewrite bind_run. cbn.
  destruct (Hk (localStorage st) (ex_intro _ st (conj H eq_refl)) st H). auto.
Qed.

Lemma bind_ret_r {R A} (c : M R A) st : bind c ret st = c st.
Proof.
  rewrite bind_run. destruct (c st) as [[a| | |] s evs]; cbn; auto.
  now rewrite app_nil_r.
Qed.

Lemma bind_ret_l {R A B} (a : A) (k : A -> M R B) st : bind (ret a) k st = k a st.
Proof. rewrite bind_run. cbn. now destruct (k a st). Qed.

Lemma start_try_stages env sb m st :
  start_try env sb m st =
    (loads <- before_gate env m ;;
     compatibilityGate m sb ;;
     configHardCheck m loads ;;
     appLoad m (fragparts_of_location env) loads) st.
Proof.
  unfold start_try, before_gate.
  rewrite bind_assoc. apply bind_ext. intros p st1.
  rewrite bind_assoc. apply bind_ext. intros _ st2.
  rewrite bind_assoc. reflexivity.
Qed.

Lemma start_try_after_gate env sb m st :
  start_try env sb m st =
    (loads <- until_gate env sb m ;;
     configHardCheck m loads ;;
     appLoad m (fragparts_of_location env) loads) st.
Proof.
  rewrite start_try_stages. unfold until_gate.
  rewrite bind_assoc. apply bind_ext. intros loads st1.
  rewrite bind_assoc. apply bind_ext. intros _ st2.
  now rewrite bind_ret_l.
Qed.

Ltac unfold_stages :=
  unfold start, start_body, start_try, until_gate, before_gate, redirectCheck,
    preload, compatibilityGate, awaitUserAcceptance, configHardCheck, appLoad,
    start_catch.

Ltac not_such_event :=
  let H := fresh in
  solve [ intro H; cbv [is_loadApp is_SetHref is_SetItem is_loader_call] in H;
          repeat match type of H with
                 | ex _ => destruct H as [? H]
                 | _ \/ _ => destruct H as [H|H]
                 end;
          discriminate H ].

Lemma not_loadApp_before_handoff env sb m :
  respects (fun _ => True) (fun ev => ~ is_loadApp ev) (until_gate env sb m).
Proof.
  unfold_stages. respects_steps; first [not_such_event | auto].
Qed.

Lemma not_loadApp_in_handler m e :
  respects (fun _ => True) (fun ev => ~ is_loadApp ev) (start_catch m e).
Proof.
  unfold_stages. respects_steps; first [not_such_event | auto].
Qed.

Lemma localStorage_before_gate env m ls :
  respects (fun st => localStorage st = ls) (fun _ => True) (before_gate env m).
Proof.
  unfold_stages. respects_steps; auto.
Qed.

Lemma compatibilityGate_Normal m sb st :
  completion (compatibilityGate m sb st) = Normal tt ->
  acceptBrowser sb (localStorage st) = true
  \/ (showIncompatibleBrowser m = Returns UserAccepts
      /\ In Call_showIncompatibleBrowser (events (compatibilityGate m sb st))).
Proof.
  unfold compatibilityGate. rewrite bind_run. cbn.
  destruct (acceptBrowser sb (localStorage st)); cbn; [now left|].
  unfold awaitUserAcceptance. rewrite !bind_run. cbn.
  destruct (showIncompatibleBrowser m) as [[|]|e]; cbn; try discriminate.
  intros _. right. split; [reflexivity|]. rewrite bind_run.
  destruct (localStorage st); cbn; auto.
Qed.

Lemma until_gate_Normal env sb m st loads :
  completion (until_gate env sb m st) = Normal loads ->
  acceptBrowser sb (localStorage st) = true
  \/ (showIncompatibleBrowser m = Returns UserAccepts
      /\ In Call_showIncompatibleBrowser (events (until_gate env sb m st))).
Proof.
  unfold until_gate. intros H.
  apply bind_Normal_inv in H as (loads0 & Hpre & H & _ & Hev).
  apply bind_Normal_inv in H as ([] & Hgate & _ & _ & Hev').
  destruct (localStorage_before_gate env m (localStorage st) st eq_refl) as [Hls _].
  apply compatibilityGate_Normal in Hgate as [Hacc|[Huser Hin]].
  - left. now rewrite <- Hls.
  - right. split; [assumption|]. rewrite Hev, Hev'.
    apply in_app_iff. right. apply in_app_iff. now left.
Qed.

Lemma acceptBrowser_spec sb ls :
  acceptBrowser sb ls = sb || storedAcknowledgment ls.
Proof. destruct sb, ls; reflexivity. Qed.

Lemma try_catch_events {R A} (body : M R A) handler st :
  events (try_catch body handler st) =
    events (body st)
    ++ match completion (body st) with
       | Throw e => events (handler e (store (body st)))
       | _ => []
       end.
Proof.
  unfold try_catch. destruct (body st) as [[| |e|] s evs]; cbn;
    rewrite ?app_nil_r; reflexivity.
Qed.

Lemma async_events {R A} (body : M RetVal A) st :
  events (async (R:=R) body st) = events (body st).
Proof. reflexivity. Qed.

Lemma bind_await_events {R A B} (p : Promise A) (k : A -> M R B) st :
  events (bind (await p) k st) =
    match p with
    | Fulfilled a => events (k a st)
    | _ => []
    end.
Proof. destruct p; reflexivity. Qed.

Lemma start_events env sb st {R} :
  events (start (R:=R) env sb st) =
    match import_init env with
    | Fulfilled m =>
        events (start_try env sb m st)
        ++ match completion (start_try env sb m st) with
           | Throw e => events (start_catch m e (store (start_try env sb m st)))
           | _ => []
           end
    | _ => []
    end.
Proof.
  unfold start. rewrite async_events. unfold start_body.
  rewrite bind_await_events. destruct (import_init env); auto.
  apply try_catch_events.
Qed.

Lemma loadApp_needs_gate env sb m st ev :
  is_loadApp ev ->
  In ev (events (start_try env sb m st)
         ++ match completion (start_try env sb m st) with
            | Throw e => events (start_catch m e (store (start_try env sb m st)))
            | _ => []
            end) ->
  exists loads, completion (until_gate env sb m st) = Normal loads
    /\ In ev (events ((configHardCheck m loads ;;
                       appLoad m (fragparts_of_location env) loads)
                        (store (until_gate env sb m st)))).
Proof.
  intros Hev Hin. apply in_app_iff in Hin as [Hin|Hin].
  - rewrite start_try_after_gate in Hin.
    apply bind_events_In in Hin as [Hin|(loads & Hn & Hin)]; [|eauto].
    destruct (not_loadApp_before_handoff env sb m st I) as [_ Hall].
    rewrite List.Forall_forall in Hall. now elim (Hall ev Hin).
  - destruct (completion (start_try env sb m st)) as [| |e|]; try now elim Hin.
    destruct (not_loadApp_in_handler m e (store (start_try env sb m st)) I)
      as [_ Hall].
    rewrite List.Forall_forall in Hall. now elim (Hall ev Hin).
Qed.

(** C1: whenever [start] calls [loadApp], the probe had passed, or a
    non-empty acknowledgment was stored, or the incompatible-browser page was
    shown and the user accepted it.  In particular, when [acceptBrowser] is
    false and the user does not accept, [loadApp] is not called. *)
Theorem loadApp_only_after_acceptance (env : Env) (supportedBrowser : bool)
    (st : Store) :
  (forall arg,
      In (Call_loadApp arg) (events (start (R:=unit) env supportedBrowser st)) ->
      supportedBrowser = true
      \/ storedAcknowledgment (localStorage st) = true
      \/ (user_confirmed env
          /\ In Call_showIncompatibleBrowser
                (events (start (R:=unit) env supportedBrowser st))))
  /\ (acceptBrowser supportedBrowser (localStorage st) = false ->
      ~ user_confirmed env ->
      forall arg,
        ~ In (Call_loadApp arg) (events (start (R:=unit) env supportedBrowser st))).
Proof.
  assert (Hmain : forall arg,
      In (Call_loadApp arg) (events (start (R:=unit) env supportedBrowser st)) ->
      acceptBrowser supportedBrowser (localStorage st) = true
      \/ (user_confirmed env
          /\ In Call_showIncompatibleBrowser
                (events (start (R:=unit) env supportedBrowser st)))).
  { intros arg Hin. rewrite start_events in *.
    destruct (import_init env) as [m| |] eqn:Himport; try now elim Hin.
    apply loadApp_needs_gate in Hin as (loads & Hn & _); [|now exists arg].
    destruct (until_gate_Normal _ _ _ _ _ Hn) as [Hacc|[Huser Hshown]]; [now left|].
    right. split; [now exists m|].
    apply in_app_iff. left. rewrite start_try_after_gate, bind_run, Hn. cbn.
    apply in_app_iff. now left. }
  split.
  - intros arg Hin. destruct (Hmain arg Hin) as [Hacc|Huser]; [|auto].
    rewrite acceptBrowser_spec in Hacc.
    apply orb_true_iff in Hacc as [?|?]; auto.
  - intros Hacc Huser arg Hin. destruct (Hmain arg Hin) as [H|[H _]].
    + congruence.
    + contradiction.
Qed.

Ltac in_list := cbn; repeat first [left; reflexivity | right].

Lemma loadApp_only_after_acceptance_witness :
  (let run := start (R:=unit) Samples.desktop true
                (Samples.store_of (Some Samples.modern) None) in
   In (Call_loadApp ∅) (events run)
   /\ (true = true
       \/ storedAcknowledgment None = true
       \/ (user_confirmed Samples.desktop
           /\ In Call_showIncompatibleBrowser (events run))))
  /\ (let env := Samples.page Samples.desktop_ua VUndefined Samples.no_fragment
                   Samples.init_user_never in
      forall arg,
        ~ In (Call_loadApp arg)
             (events (start (R:=unit) env false
                        (Samples.store_of (Some Samples.dated) (Some ∅))))).
Proof.
  split.
  - intros run. assert (Hin : In (Call_loadApp ∅) (events run)) by (vm_compute; in_list).
    split; [exact Hin|].
    exact (proj1 (loadApp_only_after_acceptance Samples.desktop true
                    (Samples.store_of (Some Samples.modern) None)) ∅ Hin).
  - intros env.
    apply (proj2 (loadApp_only_after_acceptance env false
                    (Samples.store_of (Some Samples.dated) (Some ∅)))).
    + reflexivity.
    + intros (m & Him & Huser). injection Him as <-. discriminate Huser.
Defined.

(** ** The redirect to the mobile guide *)

Lemma redirectCheck_redirects env fragparts st :
  truthy (preventRedirect fragparts) = false ->
  isIos env || isAndroid env = true ->
  indexOf (cookie env) redirect_opt_out = -1 ->
  redirectCheck env fragparts st =
    mkRun (Return RetUndefined)
          (mkStore (Modernizr st) (localStorage st) (Some mobile_guide)
                   (matrixchat st))
          [SetHref mobile_guide].
Proof.
  intros Hprevent Hmobile Hcookie. unfold redirectCheck.
  now rewrite Hprevent, Hmobile, Hcookie.
Qed.

Lemma redirectCheck_prevented env fragparts st :
  truthy (preventRedirect fragparts) = true ->
  redirectCheck env fragparts st = mkRun (Normal tt) st [].
Proof. intros Hprevent. unfold redirectCheck. now rewrite Hprevent. Qed.

Lemma preventRedirect_spec fragparts :
  truthy (preventRedirect fragparts)
  = truthy (prop (params fragparts) "client_secret")
    || negb (location fragparts =? "")%string.
Proof.
  unfold preventRedirect, js_or.
  destruct (truthy (prop (params fragparts) "client_secret")) eqn:Hsecret;
    [assumption|].
  destruct (location fragparts); reflexivity.
Qed.

Lemma settled_one_run {R} (p : Promise JsVal) (k : unit -> M R unit) st :
  (q <- settled [p] ;; await q ;; k tt) st =
    match p with
    | Fulfilled _ => k tt st
    | Rejected e =>
        mkRun (completion (k tt st)) (store (k tt st))
              (ConsoleErrorObj e :: events (k tt st))
    | Pending => mkRun Hang st []
    end.
Proof.
  destruct p; cbn; try reflexivity; now destruct (k tt st).
Qed.


Lemma bind_Return {R A B} (c : M R A) (k : A -> M R B) st v s evs :
  c st = mkRun (Return v) s evs -> bind c k st = mkRun (Return v) s evs.
Proof. intros H. rewrite bind_run, H. reflexivity. Qed.

Lemma start_try_redirects env sb m st :
  settles (rageshakePromise m) ->
  truthy (preventRedirect (fragparts_of_location env)) = false ->
  isIos env || isAndroid env = true ->
  indexOf (cookie env) redirect_opt_out = -1 ->
  start_try env sb m st =
    mkRun (Return RetUndefined)
          (mkStore (Modernizr st) (localStorage st) (Some mobile_guide)
                   (matrixchat st))
          (rejection_log [rageshakePromise m] ++ [SetHref mobile_guide]).
Proof.
  intros Hsettles Hprevent Hmobile Hcookie. unfold start_try.
  rewrite (settled_one_run (rageshakePromise m)
             (fun _ => bind (redirectCheck env (fragparts_of_location env)) _)).
  rewrite (bind_Return _ _ _ _ _ _ (redirectCheck_redirects env _ st Hprevent Hmobile Hcookie)).
  destruct (rageshakePromise m); [reflexivity|reflexivity|now elim Hsettles].
Qed.

Lemma bind_await_Fulfilled {R A B} (a : A) (k : A -> M R B) st :
  bind (await (Fulfilled a)) k st = k a st.
Proof. rewrite bind_run. cbn. now destruct (k a st). Qed.

Lemma try_catch_run {R A} (body : M R A) handler st :
  try_catch body handler st =
    match completion (body st) with
    | Throw e =>
        mkRun (completion (handler e (store (body st))))
              (store (handler e (store (body st))))
              (events (body st) ++ events (handler e (store (body st))))
    | _ => body st
    end.
Proof. reflexivity. Qed.

Lemma try_catch_Return {R A} (body : M R A) handler st v s evs :
  body st = mkRun (Return v) s evs ->
  try_catch body handler st = mkRun (Return v) s evs.
Proof. intros H. rewrite try_catch_run, H. reflexivity. Qed.

Lemma start_run {R} env sb st m :
  import_init env = Fulfilled m ->
  start (R:=R) env sb st =
    mkRun (Normal (promise_of
                     (completion (try_catch (start_try env sb m) (start_catch m) st))))
          (store (try_catch (start_try env sb m) (start_catch m) st))
          (events (try_catch (start_try env sb m) (start_catch m) st)).
Proof.
  intros Himport. unfold start, async, start_body.
  rewrite Himport, bind_await_Fulfilled. reflexivity.
Qed.

(** C5, amended: once "./init" is imported and the rageshake promise has
    settled, if the fragment has no client_secret parameter and an empty
    location, the user agent matches Android, or matches iPad, iPhone or
    iPod while window.MSStream is not set, and the cookie has no opt-out
    marker, then [start] assigns "mobile_guide/" to the page's location and
    returns: its promise fulfills and no loader (loadConfig, loadOlm,
    preparePlatform, loadApp) is called. *)
Theorem mobile_redirect_ends_the_sequence (env : Env) (m : InitModule)
    (supportedBrowser : bool) (st : Store) :
  import_init env = Fulfilled m ->
  settles (rageshakePromise m) ->
  params (fragparts_of_location env) !! "client_secret" = None ->
  location (fragparts_of_location env) = "" ->
  isIos env || isAndroid env = true ->
  indexOf (cookie env) redirect_opt_out = -1 ->
  let r := start (R:=unit) env supportedBrowser st in
  completion r = Normal (Fulfilled VUndefined)
  /\ location_href (store r) = Some mobile_guide
  /\ events r = rejection_log [rageshakePromise m] ++ [SetHref mobile_guide]
  /\ Forall (fun ev => ~ is_loader_call ev) (events r).
Proof.
  intros Himport Hsettles Hsecret Hlocation Hmobile Hcookie r.
  assert (Hprevent : truthy (preventRedirect (fragparts_of_location env)) = false).
  { rewrite preventRedirect_spec. unfold prop. now rewrite Hsecret, Hlocation. }
  subst r. rewrite (start_run _ _ _ m Himport).
  rewrite (try_catch_Return _ _ _ _ _ _
             (start_try_redirects env supportedBrowser m st
                Hsettles Hprevent Hmobile Hcookie)).
  cbn [completion store events location_href promise_of]. repeat split.
  apply Forall_app. split.
  - destruct (rageshakePromise m); repeat constructor; not_such_event.
  - repeat constructor. not_such_event.
Qed.

Lemma mobile_redirect_ends_the_sequence_witness :
  let env := Samples.page Samples.iphone_ua VUndefined Samples.no_fragment
               Samples.init_ok in
  let r := start (R:=unit) env true (Samples.store_of (Some Samples.modern) None) in
  completion r = Normal (Fulfilled VUndefined)
  /\ location_href (store r) = Some mobile_guide
  /\ events r = [SetHref mobile_guide].
Proof.
  intros env r.
  destruct (mobile_redirect_ends_the_sequence env Samples.init_ok true
              (Samples.store_of (Some Samples.modern) None))
    as (Hc & Hh & Hev & _); try reflexivity.
  - discriminate.
  - auto.
Defined.

(** C5 as stated fails: the user agent matches the iOS pattern, the
    fragment is empty and there is no opt-out cookie, but window.MSStream is
    set; [start] does not redirect and calls loadConfig (and loadApp). *)
Lemma msstream_prevents_redirect :
  let env := Samples.page Samples.iphone_ua VObject Samples.no_fragment
               Samples.init_ok in
  let r := start (R:=unit) env true (Samples.store_of (Some Samples.modern) None) in
  regex_test ["iPad"; "iPhone"; "iPod"] (userAgent env) = true
  /\ params (fragparts_of_location env) !! "client_secret" = None
  /\ location (fragparts_of_location env) = ""
  /\ indexOf (cookie env) redirect_opt_out = -1
  /\ location_href (store r) = None
  /\ In Call_loadConfig (events r)
  /\ In (Call_loadApp ∅) (events r).
Proof.
  vm_compute. repeat split; in_list.
Qed.

Lemma respects_redirectCheck_prevented I P env fragparts :
  truthy (preventRedirect fragparts) = true ->
  respects I P (redirectCheck env fragparts).
Proof.
  intros Hprevent st H. rewrite redirectCheck_prevented by assumption. cbn. auto.
Qed.

(** C8, amended: when the fragment has a non-empty client_secret parameter,
    or a non-empty location, [start] never assigns the page's location; and
    whenever [start] calls [loadApp], the argument is the parameter mapping
    of the parsed fragment, as it is. *)
Theorem deep_link_suppresses_redirect (env : Env) (supportedBrowser : bool)
    (st : Store) :
  truthy (prop (params (fragparts_of_location env)) "client_secret") = true
  \/ location (fragparts_of_location env) <> "" ->
  let r := start (R:=unit) env supportedBrowser st in
  Forall (fun ev => ~ is_SetHref ev) (events r)
  /\ location_href (store r) = location_href st
  /\ forall arg, In (Call_loadApp arg) (events r) ->
                 arg = params (fragparts_of_location env).
Proof.
  intros Hdeep r.
  assert (Hprevent : truthy (preventRedirect (fragparts_of_location env)) = true).
  { rewrite preventRedirect_spec. destruct Hdeep as [->|Hloc]; [reflexivity|].
    apply orb_true_iff. right. apply negb_true_iff.
    now apply String.eqb_neq. }
  assert (Hres : respects (R:=unit)
            (fun s => location_href s = location_href st)
            (fun ev => ~ is_SetHref ev
                       /\ forall arg, ev = Call_loadApp arg ->
                                      arg = params (fragparts_of_location env))
            (start env supportedBrowser)).
  { unfold start, start_body, start_try, preload, compatibilityGate,
      awaitUserAcceptance, configHardCheck, appLoad, start_catch.
    respects_steps;
      try (apply respects_redirectCheck_prevented; assumption);
      try (split; [not_such_event|intros ? [=]; auto]);
      auto. }
  destruct (Hres st eq_refl) as [Hhref Hall]. fold r in Hhref, Hall.
  repeat split.
  - eapply List.Forall_impl; [|exact Hall]. now intros ev [H _].
  - assumption.
  - intros arg Hin. rewrite List.Forall_forall in Hall.
    now apply (Hall _ Hin).
Qed.

Lemma deep_link_suppresses_redirect_witness :
  (let env := Samples.page Samples.android_ua VUndefined
                (Samples.secret_fragment "s3cr3t") Samples.init_ok in
   let r := start (R:=unit) env true (Samples.store_of (Some Samples.modern) None) in
   Forall (fun ev => ~ is_SetHref ev) (events r)
   /\ location_href (store r) = None
   /\ forall arg, In (Call_loadApp arg) (events r) ->
                  arg = <["client_secret" := "s3cr3t"]> ∅)
  /\ (let env := Samples.page Samples.iphone_ua VUndefined
                   Samples.room_fragment Samples.init_ok in
      let r := start (R:=unit) env true (Samples.store_of (Some Samples.modern) None) in
      Forall (fun ev => ~ is_SetHref ev) (events r)
      /\ location_href (store r) = None
      /\ forall arg, In (Call_loadApp arg) (events r) -> arg = ∅).
Proof.
  split; intros env r.
  - apply (deep_link_suppresses_redirect env true
             (Samples.store_of (Some Samples.modern) None)).
    left. reflexivity.
  - apply (deep_link_suppresses_redirect env true
             (Samples.store_of (Some Samples.modern) None)).
    right. discriminate.
Defined.

(** C8 as stated fails: with a client_secret parameter that is present but
    empty, and an empty location, a mobile browser is still redirected and
    [loadApp] is not called. *)
Lemma empty_client_secret_is_redirected :
  let env := Samples.page Samples.android_ua VUndefined
               (Samples.secret_fragment "") Samples.init_ok in
  let r := start (R:=unit) env true (Samples.store_of (Some Samples.modern) None) in
  params (fragparts_of_location env) !! "client_secret" = Some ""
  /\ events r = [SetHref mobile_guide]
  /\ location_href (store r) = Some mobile_guide.
Proof.
  vm_compute. repeat split.
Qed.

(** ** The strict wait for the config *)

Lemma call_Normal_inv {R A} ev (result : CallResult A) st (a : A) :
  completion (call (R:=R) ev result st) = Normal a -> result = Returns a.
Proof. destruct result; cbn; congruence. Qed.

Ltac invert_binds H :=
  repeat (let a := fresh "a" in
          let Ha := fresh "Ha" in
          cbv beta in H;
          apply bind_Normal_inv in H as (a & Ha & H & _ & _);
          try apply call_Normal_inv in Ha).

Lemma preload_Normal m st loads :
  completion (preload m st) = Normal loads ->
  loadConfig m = Returns (loadConfigPromise loads).
Proof.
  unfold preload. intros H. invert_binds H.
  cbn in H. injection H as <-. assumption.
Qed.

Lemma until_gate_loads env sb m st loads :
  completion (until_gate env sb m st) = Normal loads ->
  loadConfig m = Returns (loadConfigPromise loads).
Proof.
  unfold until_gate, before_gate. intros H.
  apply bind_Normal_inv in H as (loads0 & Hbefore & H & _ & _).
  apply bind_Normal_inv in H as ([] & _ & H & _ & _).
  cbn in H. injection H as <-.
  apply bind_Normal_inv in Hbefore as (p & _ & H & _ & _).
  apply bind_Normal_inv in H as (? & _ & H & _ & _).
  apply bind_Normal_inv in H as (? & _ & H & _ & _).
  now apply preload_Normal in H.
Qed.

(** What the strict wait does with a rejected config load. *)
Lemma configHardCheck_rejected m loads st e :
  loadConfigPromise loads = Rejected e ->
  configHardCheck m loads st =
    match e with
    | ThrownNullish n => mkRun (Throw (TypeError n "err")) st []
    | ThrownObject o =>
        mkRun (match showError m (config_error_title m o)
                       (config_error_lines m o) with
               | Returns p => Return (RetPromise p)
               | Raises e' => Throw e'
               end)
              st
              [Call_showError (config_error_title m o) (config_error_lines m o)]
    end.
Proof.
  intros Hcfg. unfold configHardCheck, config_error_title, config_error_lines.
  rewrite Hcfg, try_catch_run. cbn. destruct e as [n|o]; [reflexivity|].
  rewrite bind_run. cbn. unfold carries_syntax_error.
  destruct (err o) as [cause|]; [destruct (isSyntaxError cause)|];
    rewrite bind_run; unfold syntax_error_lines, string_or, title_misconfigured,
      msg_invalid_json, msg_parser, msg_config_unloadable; cbn;
    match goal with |- context [showError m ?t ?l] => destruct (showError m t l) end;
    reflexivity.
Qed.

Lemma after_gate_config_rejected m fragparts loads st e :
  loadConfigPromise loads = Rejected e ->
  (configHardCheck m loads ;; appLoad m fragparts loads) st =
    match e with
    | ThrownNullish n => mkRun (Throw (TypeError n "err")) st []
    | ThrownObject o =>
        mkRun (match showError m (config_error_title m o)
                       (config_error_lines m o) with
               | Returns p => Return (RetPromise p)
               | Raises e' => Throw e'
               end)
              st
              [Call_showError (config_error_title m o) (config_error_lines m o)]
    end.
Proof.
  intros Hcfg. rewrite bind_run, (configHardCheck_rejected _ _ _ _ Hcfg).
  destruct e as [n|o]; [reflexivity|].
  cbn [completion store events].
  destruct (showError m _ _); reflexivity.
Qed.

Lemma start_try_from_gate env sb m st loads :
  completion (until_gate env sb m st) = Normal loads ->
  start_try env sb m st =
    let after := (configHardCheck m loads ;;
                  appLoad m (fragparts_of_location env) loads)
                   (store (until_gate env sb m st)) in
    mkRun (completion after) (store after)
          (events (until_gate env sb m st) ++ events after).
Proof.
  intros Hn. rewrite start_try_after_gate, bind_run, Hn. reflexivity.
Qed.

Lemma config_rejected_no_loadApp {R} env sb m st e arg :
  import_init env = Fulfilled m ->
  loadConfig m = Returns (Rejected e) ->
  ~ In (Call_loadApp arg) (events (start (R:=R) env sb st)).
Proof.
  intros Himport Hconfig Hin. rewrite start_events, Himport in Hin.
  apply loadApp_needs_gate in Hin as (loads & Hn & Hin); [|now exists arg].
  pose proof (until_gate_loads _ _ _ _ _ Hn) as Hloads.
  rewrite Hconfig in Hloads. injection Hloads as Hloads.
  rewrite (after_gate_config_rejected _ _ _ _ e) in Hin by auto.
  destruct e as [n|o]; [elim Hin|].
  destruct Hin as [Hin|[]]. discriminate Hin.
Qed.

(** ** The handler of the try block *)

Lemma start_catch_run m e st :
  start_catch m e st =
    match e with
    | ThrownNullish n =>
        mkRun (Throw (TypeError n "translatedMessage")) st [ConsoleErrorObj e]
    | ThrownObject o =>
        let line := unexpected_line m (translatedMessage o) in
        mkRun (match showError m (_t m title_misconfigured []) [line] with
               | Returns (Fulfilled _) => Normal tt
               | Returns (Rejected e') | Raises e' => Throw e'
               | Returns Pending => Hang
               end)
              st
              [ConsoleErrorObj e;
               Call_showError (_t m title_misconfigured []) [line]]
    end.
Proof.
  unfold start_catch. rewrite !bind_run. cbn.
  destruct e as [n|o]; [reflexivity|]. cbn. rewrite !bind_run. cbn.
  destruct (showError m _ _) as [[| |]|]; reflexivity.
Qed.

(** The run of the try block and its handler when the strict wait finds the
    config load rejected. *)
Lemma config_rejected_run env sb m st e loads :
  completion (until_gate env sb m st) = Normal loads ->
  loadConfigPromise loads = Rejected e ->
  try_catch (start_try env sb m) (start_catch m) st =
    let reached := until_gate env sb m st in
    match e with
    | ThrownNullish n =>
        let shown := start_catch m (TypeError n "err") (store reached) in
        mkRun (completion shown) (store shown) (events reached ++ events shown)
    | ThrownObject o =>
        let title := config_error_title m o in
        let lines := config_error_lines m o in
        match showError m title lines with
        | Returns p =>
            mkRun (Return (RetPromise p)) (store reached)
                  (events reached ++ [Call_showError title lines])
        | Raises e' =>
            let shown := start_catch m e' (store reached) in
            mkRun (completion shown) (store shown)
                  (events reached ++ [Call_showError title lines] ++ events shown)
        end
    end.
Proof.
  intros Hn Hloads.
  rewrite try_catch_run, (start_try_from_gate _ _ _ _ _ Hn).
  rewrite (after_gate_config_rejected _ _ _ _ e Hloads).
  generalize dependent (until_gate env sb m st). intros reached Hn. cbv zeta.
  destruct e as [n|o].
  - cbn [completion store events]. now rewrite app_nil_r.
  - destruct (showError m (config_error_title m o) (config_error_lines m o));
      [reflexivity|].
    cbn [completion store events]. now rewrite <- app_assoc.
Qed.

(** ** The error pages of the try block *)

(** C6, amended: when the config load rejects, [start] never calls
    [loadApp].  When the sequence reaches the strict wait of line 178 and
    the rejection reason is not null or undefined, the next thing it does is
    one call of [showError] whose arguments depend on the kind of the reason
    only: when its [err] is an instance of SyntaxError, the title "Your
    Element is misconfigured" with two lines, the invalid-JSON statement and
    the parser line built from the message of that SyntaxError ("Invalid
    JSON" in place of an empty message); for any other reason, the title
    "Unable to load config file: ..." with no lines; when [showError]
    returns, nothing else happens and the promise of [start] is the promise
    [showError] returned.  When the reason is null or undefined, line 181
    throws a TypeError instead, which the handler of line 212 logs and shows
    as an unexpected error. *)
Theorem config_rejection_shows_error (env : Env) (supportedBrowser : bool)
    (m : InitModule) (st : Store) (e : JsError) :
  import_init env = Fulfilled m ->
  loadConfig m = Returns (Rejected e) ->
  let r := start (R:=unit) env supportedBrowser st in
  let reached := until_gate env supportedBrowser m st in
  (forall arg, ~ In (Call_loadApp arg) (events r))
  /\ (forall loads,
        completion reached = Normal loads ->
        match e with
        | ThrownObject o =>
            let unloadable :=
              _t m "Unable to load config file: please refresh the page to try again." []
            in
            let title :=
              match err o with
              | Some cause =>
                  if isSyntaxError cause
                  then _t m "Your Element is misconfigured" []
                  else unloadable
              | None => unloadable
              end in
            let lines :=
              match err o with
              | Some cause =>
                  if isSyntaxError cause then
                    [ VString
                        (_t m ("Your Element configuration contains invalid JSON. "
                               +:+ "Please correct the problem and reload the page.")
                           []);
                      VString
                        (_t m "The message from the parser is: %(message)s"
                           [("message",
                             if (message cause =? "")%string
                             then _t m "Invalid JSON" []
                             else message cause)]) ]
                  else []
              | None => []
              end in
            exists rest,
              events r = events reached ++ Call_showError title lines :: rest
              /\ forall p, showError m title lines = Returns p ->
                           rest = [] /\ completion r = Normal p
        | ThrownNullish n =>
            events r =
              events reached
              ++ [ConsoleErrorObj (TypeError n "err");
                  Call_showError (_t m "Your Element is misconfigured" [])
                    [VString
                       (_t m "Unexpected error preparing the app. See console for details."
                          [])]]
        end).
Proof.
  intros Himport Hconfig r reached. split.
  - intros arg. now apply (config_rejected_no_loadApp env supportedBrowser m st e).
  - intros loads Hn.
    pose proof (until_gate_loads _ _ _ _ _ Hn) as Hloads.
    rewrite Hconfig in Hloads. injection Hloads as Hloads. symmetry in Hloads.
    subst r. rewrite (start_run _ _ _ m Himport).
    rewrite (config_rejected_run _ _ _ _ _ _ Hn Hloads). cbv zeta.
    subst reached.
    generalize dependent (until_gate env supportedBrowser m st). intros ug Hn.
    destruct e as [n|o].
    + rewrite start_catch_run. reflexivity.
    + change (match err o with
              | Some cause =>
                  if isSyntaxError cause
                  then _t m "Your Element is misconfigured" []
                  else _t m "Unable to load config file: please refresh the page to try again." []
              | None => _t m "Unable to load config file: please refresh the page to try again." []
              end) with (config_error_title m o).
      change (match err o with
              | Some cause =>
                  if isSyntaxError cause then
                    [ VString
                        (_t m ("Your Element configuration contains invalid JSON. "
                               +:+ "Please correct the problem and reload the page.")
                           []);
                      VString
                        (_t m "The message from the parser is: %(message)s"
                           [("message",
                             if (message cause =? "")%string
                             then _t m "Invalid JSON" []
                             else message cause)]) ]
                  else []
              | None => []
              end) with (config_error_lines m o).
      destruct (showError m (config_error_title m o) (config_error_lines m o))
        as [p|e'].
      * exists []. split; [reflexivity|].
        intros p' [= <-]. split; reflexivity.
      * eexists. split; [reflexivity|discriminate].
Qed.

Lemma config_rejection_shows_error_witness :
  let env := Samples.page Samples.desktop_ua VUndefined Samples.no_fragment
               Samples.init_bad_json in
  let r := start (R:=unit) env true (Samples.store_of (Some Samples.modern) None) in
  (forall arg, ~ In (Call_loadApp arg) (events r))
  /\ events r =
       [Call_loadOlm; Call_preparePlatform; Call_loadConfig;
        ConsoleErrorObj Samples.bad_json;
        Call_setupLogStorage; Call_loadLanguage; Call_loadTheme; Call_loadSkin;
        Call_showError "Your Element is misconfigured"
          [ VString ("Your Element configuration contains invalid JSON. "
                     +:+ "Please correct the problem and reload the page.");
            VString ("The message from the parser is: %(message)s"
                     +:+ " [Unexpected token } in JSON at position 42]") ]]
  /\ completion r = Normal (Fulfilled VUndefined).
Proof.
  intros env r.
  destruct (config_rejection_shows_error env true Samples.init_bad_json
              (Samples.store_of (Some Samples.modern) None) Samples.bad_json)
    as (Hno & Hshown); [reflexivity|reflexivity|].
  split; [exact Hno|].
  destruct (Hshown (mkLoads (Fulfilled VUndefined) (Rejected Samples.bad_json)
                      (Fulfilled VUndefined) (Fulfilled VUndefined)
                      (Fulfilled VUndefined) (Fulfilled VUndefined)) eq_refl)
    as (rest & Hev & Hreturns).
  destruct (Hreturns (Fulfilled VUndefined) eq_refl) as [-> Hc].
  split; [exact Hev|exact Hc].
Defined.

(** C6 as stated fails: the config load rejects with [undefined]; reading
    [error.err] at line 181 throws, and what is shown is not the
    could-not-load-configuration message but the unexpected-error page of the
    handler of line 212. *)
Lemma undefined_config_rejection_shows_unexpected_error :
  let env := Samples.page Samples.desktop_ua VUndefined Samples.no_fragment
               Samples.init_config_undefined in
  let r := start (R:=unit) env true (Samples.store_of (Some Samples.modern) None) in
  loadConfig Samples.init_config_undefined
    = Returns (Rejected (ThrownNullish Undefined))
  /\ events r =
       [Call_loadOlm; Call_preparePlatform; Call_loadConfig;
        ConsoleErrorObj (ThrownNullish Undefined);
        Call_setupLogStorage; Call_loadLanguage; Call_loadTheme; Call_loadSkin;
        ConsoleErrorObj (TypeError Undefined "err");
        Call_showError "Your Element is misconfigured"
          [VString "Unexpected error preparing the app. See console for details."]]
  /\ forall lines,
       ~ In (Call_showError
               "Unable to load config file: please refresh the page to try again."
               lines) (events r).
Proof.
  intros env r. split; [reflexivity|].
  assert (Hev : events r =
       [Call_loadOlm; Call_preparePlatform; Call_loadConfig;
        ConsoleErrorObj (ThrownNullish Undefined);
        Call_setupLogStorage; Call_loadLanguage; Call_loadTheme; Call_loadSkin;
        ConsoleErrorObj (TypeError Undefined "err");
        Call_showError "Your Element is misconfigured"
          [VString "Unexpected error preparing the app. See console for details."]])
    by (vm_compute; reflexivity).
  split; [exact Hev|].
  intros lines Hin. rewrite Hev in Hin.
  repeat (destruct Hin as [Hin|Hin]; [discriminate Hin|]). exact Hin.
Qed.



(** ** The last-resort handler *)

Lemma bind_Normal_run {R A B} (c : M R A) (k : A -> M R B) st a :
  completion (c st) = Normal a ->
  bind c k st =
    mkRun (completion (k a (store (c st)))) (store (k a (store (c st))))
          (events (c st) ++ events (k a (store (c st)))).
Proof. intros H. now rewrite bind_run, H. Qed.

Lemma async_completion {R A} (body : M RetVal A) st :
  completion (async (R:=R) body st) = Normal (promise_of (completion (body st))).
Proof. reflexivity. Qed.

Lemma presentFatal_run {R} sb e st :
  presentFatal (R:=R) sb e st =
    mkRun (Normal tt)
          (mkStore (Modernizr st) (localStorage st) (location_href st)
                   (matrixchat st ++ [fatal_iframe sb]))
          [ConsoleErrorObj e; DeleteBodyStyleHeight; AppendChild (fatal_iframe sb)].
Proof. reflexivity. Qed.

Lemma respects_feature_loop I P o keys :
  (forall text args, P (ConsoleError text args)) ->
  forall featureComplete, respects I P (feature_loop o keys featureComplete).
Proof.
  intros HP. induction keys as [|key keys IH]; intros fc; cbn [feature_loop].
  - apply respects_ret.
  - respects_steps; auto.
Qed.

Lemma feature_loop_completes o keys : forall featureComplete st,
  exists b, completion (feature_loop o keys featureComplete st) = Normal b
            \/ completion (feature_loop o keys featureComplete st) = Return b.
Proof.
  induction keys as [|key keys IH]; intros fc st; cbn [feature_loop].
  - exists fc. now left.
  - rewrite bind_run.
    destruct (is_undefined (get o key)); cbn; [exists false; now right|].
    rewrite bind_run.
    destruct (is_false (get o key)); cbn.
    + destruct (IH false st) as [b [H|H]]; exists b; rewrite H; auto.
    + destruct (IH fc st) as [b [H|H]]; exists b; rewrite H; auto.
Qed.

Lemma checkBrowserFeatures_completes {R} env st :
  exists sb, completion (checkBrowserFeatures (R:=R) env st) = Normal sb.
Proof.
  rewrite checkBrowserFeatures_run. destruct (Modernizr st) as [o|].
  - cbv zeta. cbn [completion].
    match goal with
    | |- context [feature_loop ?o ?keys ?fc ?s] =>
        destruct (feature_loop_completes o keys fc s) as [b [H|H]]
    end; exists b; now rewrite H.
  - now exists false.
Qed.

Lemma matrixchat_kept_by_probe {R} env children :
  respects (R:=R) (fun s => matrixchat s = children) (fun _ => True)
    (checkBrowserFeatures env).
Proof.
  unfold checkBrowserFeatures, checkBrowserFeatures_body.
  respects_steps; auto. now apply respects_feature_loop.
Qed.

Lemma matrixchat_kept_by_start {R} env sb children :
  respects (R:=R) (fun s => matrixchat s = children) (fun _ => True)
    (start env sb).
Proof.
  unfold_stages. respects_steps; auto.
Qed.

(** C9: when the promise of [start] rejects, the script appends to the
    element "matrixchat" one iframe, sandboxed with the empty value, filling
    the viewport, whose source is "static/incompatible-browser.html" exactly
    when [supportedBrowser], the result of the probe at module load, is false
    and "static/unable-to-load.html" exactly when it is true; when the
    promise does not reject, nothing is appended. *)
Theorem fatal_page_follows_the_probe (env : Env) (st : Store) :
  let probe := checkBrowserFeatures (R:=unit) env st in
  forall supportedBrowser,
    completion probe = Normal supportedBrowser ->
    let started := start (R:=unit) env supportedBrowser (store probe) in
    (forall err,
        completion started = Normal (Rejected err) ->
        matrixchat (store (script env st))
          = matrixchat st ++ [fatal_iframe supportedBrowser]
        /\ events (script env st)
           = events probe ++ events started
             ++ [ConsoleErrorObj err; DeleteBodyStyleHeight;
                 AppendChild (fatal_iframe supportedBrowser)])
    /\ ((forall err, completion started <> Normal (Rejected err)) ->
        matrixchat (store (script env st)) = matrixchat st)
    /\ sandbox (fatal_iframe supportedBrowser) = ""
    /\ (src (fatal_iframe supportedBrowser) = "static/incompatible-browser.html"
        <-> supportedBrowser = false)
    /\ (src (fatal_iframe supportedBrowser) = "static/unable-to-load.html"
        <-> supportedBrowser = true)
    /\ style_width (fatal_iframe supportedBrowser) = "100%"
    /\ style_height (fatal_iframe supportedBrowser) = "100%"
    /\ style_position (fatal_iframe supportedBrowser) = "absolute"
    /\ style_top (fatal_iframe supportedBrowser) = "0"
    /\ style_left (fatal_iframe supportedBrowser) = "0"
    /\ style_right (fatal_iframe supportedBrowser) = "0"
    /\ style_bottom (fatal_iframe supportedBrowser) = "0".
Proof.
  intros probe sb Hprobe started.
  assert (Hkept : matrixchat (store started) = matrixchat st).
  { destruct (matrixchat_kept_by_probe (R:=unit) env (matrixchat st) st eq_refl)
      as [Hp _].
    now destruct (matrixchat_kept_by_start (R:=unit) env sb (matrixchat st)
                    (store probe) Hp). }
  assert (Hscript : forall p, completion started = Normal p ->
            script env st =
              let caught := promise_catch p (presentFatal sb) (store started) in
              mkRun (completion caught) (store caught)
                    (events probe ++ events started ++ events caught)).
  { intros p Hstarted. unfold script.
    rewrite (bind_Normal_run _ _ _ sb Hprobe).
    rewrite (bind_Normal_run _ _ _ p Hstarted).
    reflexivity. }
  assert (Hp : exists p, completion started = Normal p).
  { eexists. apply async_completion. }
  clearbody started. clearbody probe.
  split; [|split].
  - intros err Hrej. rewrite (Hscript _ Hrej). cbn. now rewrite Hkept.
  - intros Hnot. destruct Hp as [p Hp]. rewrite (Hscript _ Hp).
    destruct p as [v|err|]; [assumption|now elim (Hnot err)|assumption].
  - destruct sb; cbn; repeat split; intros H;
      try reflexivity; discriminate H.
Qed.

Lemma fatal_page_follows_the_probe_witness :
  let st := Samples.store_of (Some Samples.dated) None in
  matrixchat (store (script Samples.page_without_init st)) = [fatal_iframe false]
  /\ src (fatal_iframe false) = "static/incompatible-browser.html".
Proof.
  intros st.
  pose proof (fatal_page_follows_the_probe Samples.page_without_init st false
                eq_refl) as (Hrej & _ & _ & Hsrc & _).
  split.
  - apply (Hrej (Samples.boom "Loading chunk init failed")). reflexivity.
  - apply Hsrc. reflexivity.
Defined.

(** ** The compatibility gate without localStorage *)

Ltac respects_storage_step :=
  lazymatch goal with
  | |- respects _ _ (bind get_localStorage _) =>
      let s := fresh "s" in
      let Hs := fresh "Hs" in
      apply respects_read_localStorage;
      intros ? (s & Hs & <-); cbv beta in Hs; rewrite Hs
  | _ => respects_step
  end.

Lemma no_SetItem_without_storage {R} env sb :
  respects (R:=R) (fun s => localStorage s = None) (fun ev => ~ is_SetItem ev)
    (start env sb).
Proof.
  unfold_stages. repeat respects_storage_step; first [not_such_event | auto].
Qed.

Lemma compatibilityGate_without_storage m st :
  localStorage st = None ->
  showIncompatibleBrowser m = Returns UserAccepts ->
  compatibilityGate m false st =
    mkRun (Normal tt) st
          [ConsoleError "Browser is missing required features." [];
           Call_showIncompatibleBrowser;
           ConsoleLog "User accepts the compatibility risks."].
Proof.
  intros Hls Huser. unfold compatibilityGate, awaitUserAcceptance.
  rewrite !bind_run. cbn. rewrite Hls. cbn. rewrite !bind_run. cbn.
  rewrite Huser. cbn. rewrite !bind_run. cbn. rewrite Hls. reflexivity.
Qed.

Lemma after_gate_succeeds m fragparts loads st :
  loads_succeed loads ->
  (configHardCheck m loads ;; appLoad m fragparts loads) st =
    mkRun (match loadApp m (params fragparts) with
           | Returns (Fulfilled _) => Normal tt
           | Returns (Rejected e) | Raises e => Throw e
           | Returns Pending => Hang
           end)
          st
          (rejection_log [persistLogsPromise loads]
           ++ [Call_loadApp (params fragparts)]).
Proof.
  destruct loads as [olm config logs language theme skin].
  intros ((? & Hconfig) & (? & Holm) & (? & Hskin) & (? & Htheme) & (? & Hlang)
          & Hlogs).
  cbn in *. subst. unfold configHardCheck, appLoad. cbn.
  destruct logs as [?|?|]; [| |now elim Hlogs]; cbn;
    destruct (loadApp m (params fragparts)) as [[| |]|]; reflexivity.
Qed.

(** C10: with an unsupported browser and no localStorage, line 155 leaves
    [acceptBrowser] false; the gate then shows the incompatible-browser page
    and, once the user accepts, completes normally with the store as it was;
    over the whole run of [start] nothing is written: there is no [setItem]
    and localStorage is still absent; and the run goes on to the app load:
    if the loads that lines 178-207 wait for have succeeded, [loadApp] is
    called with the parameters of the fragment right after the gate. *)
Theorem unsupported_browser_without_storage (env : Env) (m : InitModule)
    (st : Store) :
  import_init env = Fulfilled m ->
  localStorage st = None ->
  showIncompatibleBrowser m = Returns UserAccepts ->
  let r := start (R:=unit) env false st in
  acceptBrowser false (localStorage st) = false
  /\ (forall st', localStorage st' = None ->
        compatibilityGate m false st' =
          mkRun (Normal tt) st'
                [ConsoleError "Browser is missing required features." [];
                 Call_showIncompatibleBrowser;
                 ConsoleLog "User accepts the compatibility risks."])
  /\ localStorage (store r) = None
  /\ Forall (fun ev => ~ is_SetItem ev) (events r)
  /\ (forall loads,
        completion (until_gate env false m st) = Normal loads ->
        loads_succeed loads ->
        In Call_showIncompatibleBrowser (events (until_gate env false m st))
        /\ exists rest,
             events r = events (until_gate env false m st)
                        ++ rejection_log [persistLogsPromise loads]
                        ++ Call_loadApp (params (fragparts_of_location env))
                        :: rest).
Proof.
  intros Himport Hls Huser r.
  split; [now rewrite Hls|].
  split; [intros st' Hst'; now apply compatibilityGate_without_storage|].
  destruct (no_SetItem_without_storage (R:=unit) env false st Hls) as [Hkept Hno].
  split; [exact Hkept|]. split; [exact Hno|].
  intros loads Hn Hloads. split.
  - destruct (until_gate_Normal _ _ _ _ _ Hn) as [Hacc|[_ Hin]]; [|exact Hin].
    rewrite Hls in Hacc. discriminate Hacc.
  - subst r. rewrite start_events, Himport.
    rewrite (start_try_from_gate _ _ _ _ _ Hn). cbv zeta.
    rewrite (after_gate_succeeds _ _ _ _ Hloads).
    generalize dependent (until_gate env false m st). intros ug _.
    cbn [completion store events].
    eexists. rewrite <- !app_assoc. cbn [app]. reflexivity.
Qed.

Lemma unsupported_browser_without_storage_witness :
  let st := Samples.store_of (Some Samples.dated) None in
  let r := start (R:=unit) Samples.desktop false st in
  localStorage (store r) = None
  /\ Forall (fun ev => ~ is_SetItem ev) (events r)
  /\ In Call_showIncompatibleBrowser (events r)
  /\ In (Call_loadApp ∅) (events r).
Proof.
  intros st r.
  destruct (unsupported_browser_without_storage Samples.desktop Samples.init_ok st)
    as (_ & _ & Hkept & Hno & Hgoes); try reflexivity.
  destruct (Hgoes (mkLoads (Fulfilled VUndefined) (Fulfilled VUndefined)
                     (Fulfilled VUndefined) (Fulfilled VUndefined)
                     (Fulfilled VUndefined) (Fulfilled VUndefined)))
    as (Hshown & rest & Hev).
  - reflexivity.
  - repeat split; try (eexists; reflexivity). discriminate.
  - split; [exact Hkept|]. split; [exact Hno|]. fold r in Hev. rewrite Hev.
    split; apply in_app_iff; [left; exact Hshown|right; left; reflexivity].
Defined.

(** ** Further properties of the probe *)

Lemma feature_loop_outcome o keys : forall featureComplete st,
  let r := feature_loop o keys featureComplete st in
  (completion r = Normal true /\ featureComplete = true /\ events r = []
   /\ Forall (feature_present o) keys)
  \/ ((completion r = Normal false \/ completion r = Return false)
      /\ (featureComplete = true ->
          events r <> [] /\ ~ Forall (feature_present o) keys)).
Proof.
  induction keys as [|key keys IH]; intros fc st r; subst r.
  - cbn. destruct fc; [left|right]; repeat split; auto; discriminate.
  - cbn [feature_loop]. rewrite bind_run.
    destruct (is_undefined (get o key)) eqn:Hundef; cbn.
    + right. split; [now right|]. intros _. split; [discriminate|].
      intros Hall. inversion Hall as [|? ? [Hk _] _]; subst. congruence.
    + rewrite bind_run. destruct (is_false (get o key)) eqn:Hfalse; cbn.
      * right. destruct (IH false st) as [(_ & Hfc & _)|(Hc & _)]; [discriminate|].
        split; [exact Hc|]. intros _. split; [discriminate|].
        intros Hall. inversion Hall as [|? ? [_ Hk] _]; subst. congruence.
      * destruct (IH fc st) as [(Hc & Hfc & Hev & Hall)|(Hc & Hrest)].
        -- left. repeat split; auto. constructor; [split|]; assumption.
        -- right. split; [exact Hc|]. intros Hfc.
           destruct (Hrest Hfc) as [Hev Hnot]. split; [exact Hev|].
           intros Hall. inversion Hall; subst. contradiction.
Qed.

(** X1: with the Modernizr global there, the probe returns [true] exactly
    when, once the three tests are added, every key has a value that is
    neither [undefined] nor [false]. *)
Theorem probe_passes_iff_every_feature_present (env : Env) (st : Store)
    (o : JsObject) :
  Modernizr st = Some o ->
  completion (checkBrowserFeatures (R:=unit) env st) = Normal true
  <-> Forall (feature_present (addTests env o)) (Object_keys (addTests env o)).
Proof.
  intros HM. rewrite checkBrowserFeatures_run, HM. cbv zeta. cbn [completion].
  match goal with
  | |- context [feature_loop ?o' ?keys true ?s] =>
      destruct (feature_loop_outcome o' keys true s)
        as [(Hc & _ & _ & Hall)|([Hc|Hc] & Hrest)];
      rewrite Hc
  end.
  - tauto.
  - destruct (Hrest eq_refl) as [_ Hnot]. split; [discriminate|contradiction].
  - destruct (Hrest eq_refl) as [_ Hnot]. split; [discriminate|contradiction].
Qed.

Lemma probe_passes_iff_every_feature_present_witness :
  completion (checkBrowserFeatures (R:=unit) Samples.desktop
                (Samples.store_of (Some Samples.modern) None)) = Normal true.
Proof.
  apply (probe_passes_iff_every_feature_present Samples.desktop
           (Samples.store_of (Some Samples.modern) None) Samples.modern).
  - reflexivity.
  - vm_compute. repeat constructor.
Defined.

(** X2: the probe returns [true] exactly when it has logged nothing: every
    [false] comes with at least one diagnostic, and a passing probe is
    silent. *)
Theorem probe_silent_iff_passing (env : Env) (st : Store) (verdict : bool) :
  completion (checkBrowserFeatures (R:=unit) env st) = Normal verdict ->
  verdict = true <-> events (checkBrowserFeatures (R:=unit) env st) = [].
Proof.
  rewrite checkBrowserFeatures_run. destruct (Modernizr st) as [o|].
  - cbv zeta. cbn [completion events].
    match goal with
    | |- context [feature_loop ?o' ?keys true ?s] =>
        destruct (feature_loop_outcome o' keys true s)
          as [(Hc & _ & Hev & _)|([Hc|Hc] & Hrest)];
        rewrite Hc
    end.
    + intros [= <-]. now rewrite Hev.
    + intros [= <-]. destruct (Hrest eq_refl) as [Hev _].
      split; [discriminate|contradiction].
    + intros [= <-]. destruct (Hrest eq_refl) as [Hev _].
      split; [discriminate|contradiction].
  - cbn. intros [= <-]. split; discriminate.
Qed.

Lemma probe_silent_iff_passing_witness :
  events (checkBrowserFeatures (R:=unit) Samples.desktop
            (Samples.store_of (Some Samples.modern) None)) = []
  /\ events (checkBrowserFeatures (R:=unit) Samples.desktop
               (Samples.store_of (Some Samples.dated) None)) <> [].
Proof.
  split.
  - apply (probe_silent_iff_passing Samples.desktop
             (Samples.store_of (Some Samples.modern) None) true); reflexivity.
  - intros Hev.
    apply (probe_silent_iff_passing Samples.desktop
             (Samples.store_of (Some Samples.dated) None) false) in Hev;
      [discriminate|reflexivity].
Defined.

(** ** Further properties of settled *)

Lemma settled_loop_app l1 l2 st :
  settled_loop (l1 ++ l2) st = (settled_loop l1 ;; settled_loop l2) st.
Proof.
  revert st. induction l1 as [|p l1 IH]; intros st.
  - cbn [app settled_loop]. now rewrite bind_ret_l.
  - cbn [app settled_loop]. rewrite bind_assoc. apply bind_ext.
    intros _ st'. apply IH.
Qed.

Lemma settled_loop_pending pre post st :
  Forall settles pre ->
  settled_loop (pre ++ Pending :: post) st = mkRun Hang st (rejection_log pre).
Proof.
  intros Hpre. rewrite settled_loop_app, bind_run, (settled_loop_settles _ _ Hpre).
  cbn. now rewrite app_nil_r.
Qed.

Lemma settled_loop_store promises st : store (settled_loop promises st) = st.
Proof.
  revert st. induction promises as [|p ps IH]; intros st; [reflexivity|].
  cbn [settled_loop]. rewrite bind_run.
  destruct p as [v|e|]; cbn; auto.
Qed.

(** X3: when a promise of the list never settles and the ones before it
    do, [settled] logs the rejections among those before it, in order, and
    then stays pending for ever: the promises after it are never awaited and
    their rejections are not logged. The store is as it was. *)
Theorem settled_stops_at_pending_task (pre post : list (Promise JsVal))
    (st : Store) :
  Forall settles pre ->
  settled (R:=RetVal) (pre ++ Pending :: post) st =
    mkRun (Normal Pending) st (rejection_log pre).
Proof.
  intros Hpre. unfold settled, async. now rewrite settled_loop_pending.
Qed.

Lemma settled_stops_at_pending_task_witness :
  settled (R:=RetVal)
    [Rejected (Samples.boom "T1"); Fulfilled VNull; Pending;
     Rejected (Samples.boom "T4")]
    (Samples.store_of None None)
  = mkRun (Normal Pending) (Samples.store_of None None)
          [ConsoleErrorObj (Samples.boom "T1")].
Proof.
  apply (settled_stops_at_pending_task
           [Rejected (Samples.boom "T1"); Fulfilled VNull]
           [Rejected (Samples.boom "T4")]).
  repeat constructor; discriminate.
Defined.

(** X4: waiting for [settled] on a concatenation is waiting for [settled]
    on the first list and then on the second: same logs in the same order,
    same outcome, also when some promise never settles. *)
Theorem settled_of_concatenation (l1 l2 : list (Promise JsVal)) (st : Store) :
  (p <- settled (l1 ++ l2) ;; await p) st
  = (p <- settled l1 ;; await p ;; q <- settled l2 ;; await (R:=RetVal) q) st.
Proof.
  unfold settled, async. rewrite !bind_run. cbn [completion store events].
  rewrite settled_loop_app, bind_run.
  rewrite !settled_loop_store.
  destruct (settled_loop_never_throws l1 st) as [H1|H1]; rewrite H1;
    cbn; rewrite ?settled_loop_store, ?app_nil_r; [|reflexivity].
  destruct (settled_loop_never_throws l2 st) as [H2|H2]; rewrite H2;
    cbn; rewrite ?settled_loop_store, ?app_nil_r; reflexivity.
Qed.

(** ** Further properties of the orchestrator *)

Lemma bind_await_unfulfilled {R A B} (p : Promise A) (k : A -> M R B) st :
  (forall a, p <> Fulfilled a) ->
  bind (await p) k st =
    mkRun (match p with Rejected e => Throw e | _ => Hang end) st [].
Proof.
  intros Hp. rewrite bind_run. destruct p as [a| |]; [now elim (Hp a)| |];
    reflexivity.
Qed.

(** X5: when the import of "./init" fails, [start] does nothing at all: no
    collaborator is called, nothing is logged, the store is as it was, and
    the promise of [start] is rejected with the error of the import; when
    the import never settles, the promise of [start] stays pending. *)
Theorem failed_import_runs_nothing (env : Env) (supportedBrowser : bool)
    (st : Store) :
  (forall a, import_init env <> Fulfilled a) ->
  start (R:=unit) env supportedBrowser st =
    mkRun (Normal (match import_init env with
                   | Rejected e => Rejected e
                   | _ => Pending
                   end)) st [].
Proof.
  intros Himport. unfold start, async, start_body.
  rewrite (bind_await_unfulfilled _ _ _ Himport).
  destruct (import_init env) as [a| |]; [now elim (Himport a)| |]; reflexivity.
Qed.

Lemma failed_import_runs_nothing_witness :
  start (R:=unit) Samples.page_without_init true (Samples.store_of None None) =
    mkRun (Normal (Rejected (Samples.boom "Loading chunk init failed")))
          (Samples.store_of None None) [].
Proof.
  apply (failed_import_runs_nothing Samples.page_without_init true
           (Samples.store_of None None)).
  discriminate.
Defined.

Lemma redirectCheck_run env st :
  redirectCheck env (fragparts_of_location env) st =
    if redirects env then
      mkRun (Return RetUndefined)
            (mkStore (Modernizr st) (localStorage st) (Some mobile_guide)
                     (matrixchat st))
            [SetHref mobile_guide]
    else mkRun (Normal tt) st [].
Proof.
  unfold redirectCheck, redirects.
  destruct (truthy (preventRedirect (fragparts_of_location env)));
    destruct (isIos env || isAndroid env);
    destruct (indexOf (cookie env) redirect_opt_out =? -1); reflexivity.
Qed.

Lemma respects_redirectCheck_silent I P env :
  redirects env = false ->
  respects I P (redirectCheck env (fragparts_of_location env)).
Proof.
  intros Hno st H. rewrite redirectCheck_run, Hno. cbn. auto.
Qed.

Ltac unfold_stages_but_redirect :=
  unfold start, start_body, start_try, until_gate, before_gate,
    preload, compatibilityGate, awaitUserAcceptance, configHardCheck, appLoad,
    start_catch.

Lemma href_only_mobile_guide {R} env sb :
  respects (R:=R) (fun _ => True)
    (fun ev => forall url, ev = SetHref url -> url = mobile_guide)
    (start env sb).
Proof.
  unfold_stages.
  respects_steps;
    try (let H := fresh in
         intros ? H; first [discriminate H | injection H as <-; reflexivity]);
    try discriminate; auto.
Qed.

Lemma no_SetHref_without_redirect {R} env sb :
  redirects env = false ->
  respects (R:=R) (fun _ => True) (fun ev => ~ is_SetHref ev) (start env sb).
Proof.
  intros Hno. unfold_stages_but_redirect.
  respects_steps;
    try (apply respects_redirectCheck_silent; assumption);
    first [not_such_event | auto].
Qed.

(** X12: [start] assigns the location of the page only to "mobile_guide/",
    and only when "./init" was imported, the rageshake promise has settled,
    the fragment prevents no redirect, the user agent is that of iOS (without
    window.MSStream) or of Android, and the cookie has no opt-out marker:
    on any other page load, for instance one with the opt-out cookie, the
    location is never assigned. *)
Theorem redirect_needs_mobile_without_opt_out (env : Env)
    (supportedBrowser : bool) (st : Store) (url : string) :
  In (SetHref url) (events (start (R:=unit) env supportedBrowser st)) ->
  url = mobile_guide
  /\ truthy (preventRedirect (fragparts_of_location env)) = false
  /\ isIos env || isAndroid env = true
  /\ indexOf (cookie env) redirect_opt_out = -1
  /\ exists m, import_init env = Fulfilled m /\ settles (rageshakePromise m).
Proof.
  intros Hin. split; [|].
  { destruct (href_only_mobile_guide (R:=unit) env supportedBrowser st I)
      as [_ Hall].
    rewrite List.Forall_forall in Hall. now apply (Hall _ Hin). }
  assert (Hred : redirects env = true).
  { destruct (redirects env) eqn:Hred; [reflexivity|].
    destruct (no_SetHref_without_redirect (R:=unit) env supportedBrowser Hred st I)
      as [_ Hall].
    rewrite List.Forall_forall in Hall. elim (Hall _ Hin). now exists url. }
  unfold redirects in Hred.
  apply andb_true_iff in Hred as [Hred Hcookie].
  apply andb_true_iff in Hred as [Hprevent Hmobile].
  apply negb_true_iff in Hprevent. apply Z.eqb_eq in Hcookie.
  repeat split; try assumption.
  rewrite start_events in Hin.
  destruct (import_init env) as [m| |]; try now elim Hin.
  exists m. split; [reflexivity|]. intros Hpending.
  assert (Hhang : start_try env supportedBrowser m st = mkRun Hang st []).
  { unfold start_try.
    rewrite (settled_one_run (rageshakePromise m)
               (fun _ => bind (redirectCheck env (fragparts_of_location env)) _)).
    now rewrite Hpending. }
  rewrite Hhang in Hin. elim Hin.
Qed.

Lemma redirect_needs_mobile_without_opt_out_witness :
  let env := Samples.page Samples.android_ua VUndefined Samples.no_fragment
               Samples.init_ok in
  isIos env || isAndroid env = true
  /\ indexOf (cookie env) redirect_opt_out = -1.
Proof.
  intros env.
  destruct (redirect_needs_mobile_without_opt_out env true
              (Samples.store_of (Some Samples.modern) None) mobile_guide)
    as (_ & _ & Hmobile & Hcookie & _).
  - vm_compute. in_list.
  - split; assumption.
Defined.

(** ** Further properties of the compatibility gate *)

Lemma compatibilityGate_run m sb st :
  compatibilityGate m sb st =
    if acceptBrowser sb (localStorage st) then mkRun (Normal tt) st []
    else match showIncompatibleBrowser m with
         | Returns UserAccepts =>
             mkRun (Normal tt)
                   (match localStorage st with
                    | Some items =>
                        mkStore (Modernizr st)
                                (Some (<[accept_key := "true"]> items))
                                (location_href st) (matrixchat st)
                    | None => st
                    end)
                   (prompt_events (localStorage st))
         | Returns UserNever =>
             mkRun Hang st
                   [ConsoleError "Browser is missing required features." [];
                    Call_showIncompatibleBrowser]
         | Raises e =>
             mkRun (Throw e) st
                   [ConsoleError "Browser is missing required features." [];
                    Call_showIncompatibleBrowser]
         end.
Proof.
  unfold compatibilityGate, awaitUserAcceptance, prompt_events.
  rewrite bind_run. cbn.
  destruct (acceptBrowser sb (localStorage st)); cbn; [reflexivity|].
  rewrite !bind_run. cbn.
  destruct (showIncompatibleBrowser m) as [[|]|e]; cbn; try reflexivity.
  rewrite !bind_run. cbn. destruct st as [mz [items|] href children]; reflexivity.
Qed.

Ltac respects_accepted_step Hacc :=
  lazymatch goal with
  | |- respects _ _ (bind get_localStorage _) =>
      let s := fresh "s" in
      let Hs := fresh "Hs" in
      apply respects_read_localStorage;
      intros ? (s & Hs & <-); cbv beta in Hs; rewrite Hs, ?Hacc; cbn [negb]
  | _ => respects_step
  end.

(** X10: when [acceptBrowser] is true at the gate (the probe passed, or a
    non-empty acknowledgment is stored), [start] never shows the
    incompatible-browser page and never writes to localStorage, which is
    at the end as it was. *)
Theorem accepted_browser_is_not_asked (env : Env) (supportedBrowser : bool)
    (st : Store) :
  acceptBrowser supportedBrowser (localStorage st) = true ->
  let r := start (R:=unit) env supportedBrowser st in
  ~ In Call_showIncompatibleBrowser (events r)
  /\ Forall (fun ev => ~ is_SetItem ev) (events r)
  /\ localStorage (store r) = localStorage st.
Proof.
  intros Hacc r.
  assert (Hres : respects (R:=unit)
            (fun s => localStorage s = localStorage st)
            (fun ev => ev <> Call_showIncompatibleBrowser /\ ~ is_SetItem ev)
            (start env supportedBrowser)).
  { unfold_stages. repeat respects_accepted_step Hacc;
      try (split; [discriminate|not_such_event]); auto. }
  destruct (Hres st eq_refl) as [Hkept Hall]. fold r in Hkept, Hall.
  split; [|split].
  - intros Hin. rewrite List.Forall_forall in Hall.
    now destruct (Hall _ Hin) as [Hne _].
  - eapply List.Forall_impl; [|exact Hall]. now intros ev [_ H].
  - exact Hkept.
Qed.

Lemma accepted_browser_is_not_asked_witness :
  let st := Samples.store_of (Some Samples.dated)
              (Some (<[accept_key := "true"]> ∅)) in
  let r := start (R:=unit) Samples.desktop false st in
  ~ In Call_showIncompatibleBrowser (events r)
  /\ Forall (fun ev => ~ is_SetItem ev) (events r)
  /\ localStorage (store r) = Some (<[accept_key := "true"]> ∅).
Proof.
  intros st r.
  apply (accepted_browser_is_not_asked Samples.desktop false st).
  reflexivity.
Defined.

Lemma insert_accept_twice (ls : option (gmap string string)) :
  <[accept_key := "true"]> <$> (<[accept_key := "true"]> <$> ls)
  = <[accept_key := "true"]> <$> ls.
Proof. destruct ls as [items|]; cbn; [|reflexivity]. now rewrite insert_insert_eq. Qed.

Lemma only_accept_key_written env ls0 :
  respects
    (fun s => localStorage s = ls0
              \/ localStorage s = <[accept_key := "true"]> <$> ls0)
    (fun ev => forall key value,
         ev = SetItem key value -> key = accept_key /\ value = "true")
    (script env).
Proof.
  unfold script, checkBrowserFeatures, checkBrowserFeatures_body, promise_catch,
    presentFatal.
  unfold_stages.
  respects_steps;
    try (apply respects_feature_loop; intros);
    try (let H := fresh in
         intros ? ? H; first [discriminate H | injection H as <- <-; now split]);
    try discriminate; auto.
  intros s [H|H]; cbn; rewrite H; [now right|right; apply insert_accept_twice].
Qed.

(** X11: whatever happens, the script writes nothing to localStorage but
    the value "true" under the key "mx_accepts_unsupported_browser": at the
    end localStorage is as it was, or as it was with that one entry set;
    every other key keeps its value, and a browser without localStorage
    still has none. *)
Theorem only_the_acknowledgment_is_written (env : Env) (st : Store) :
  let r := script env st in
  (forall key value, In (SetItem key value) (events r) ->
                     key = accept_key /\ value = "true")
  /\ (localStorage (store r) = localStorage st
      \/ localStorage (store r) = <[accept_key := "true"]> <$> localStorage st)
  /\ (forall items items' key,
        localStorage st = Some items -> localStorage (store r) = Some items' ->
        key <> accept_key -> items' !! key = items !! key)
  /\ (localStorage st = None -> localStorage (store r) = None).
Proof.
  intros r.
  destruct (only_accept_key_written env (localStorage st) st (or_introl eq_refl))
    as [Hkept Hall].
  fold r in Hkept, Hall. split; [|split; [|split]].
  - intros key value Hin. rewrite List.Forall_forall in Hall.
    now apply (Hall _ Hin).
  - exact Hkept.
  - intros items items' key Hst Hr Hkey. rewrite Hst, Hr in Hkept.
    destruct Hkept as [[= ->]|[= ->]]; [reflexivity|].
    now apply lookup_insert_ne.
  - intros Hst. rewrite Hst in Hkept. now destruct Hkept.
Qed.

Lemma only_the_acknowledgment_is_written_witness :
  let st := Samples.store_of (Some Samples.dated)
              (Some (<["mx_access_token" := "secret"]> ∅)) in
  exists items',
    localStorage (store (script Samples.desktop st)) = Some items'
    /\ items' !! "mx_access_token" = Some "secret"
    /\ items' !! accept_key = Some "true".
Proof.
  intros st.
  destruct (only_the_acknowledgment_is_written Samples.desktop st)
    as (_ & _ & Hother & _).
  exists (<[accept_key := "true"]> (<["mx_access_token" := "secret"]> ∅)).
  assert (Hr : localStorage (store (script Samples.desktop st))
               = Some (<[accept_key := "true"]>
                         (<["mx_access_token" := "secret"]> ∅)))
    by (vm_compute; reflexivity).
  split; [exact Hr|]. split; [|reflexivity].
  rewrite (Hother (<["mx_access_token" := "secret"]> ∅) _ "mx_access_token"
             eq_refl Hr); [reflexivity|discriminate].
Defined.

Lemma start_try_at_gate env sb m st loads :
  completion (before_gate env m st) = Normal loads ->
  start_try env sb m st =
    let after := (compatibilityGate m sb ;;
                  configHardCheck m loads ;;
                  appLoad m (fragparts_of_location env) loads)
                   (store (before_gate env m st)) in
    mkRun (completion after) (store after)
          (events (before_gate env m st) ++ events after).
Proof.
  intros Hn. rewrite start_try_stages, bind_run, Hn. reflexivity.
Qed.

Lemma no_prompt_before_gate env m :
  respects (fun _ => True) (fun ev => ev <> Call_showIncompatibleBrowser)
    (before_gate env m).
Proof. unfold_stages. respects_steps; try discriminate; auto. Qed.

Lemma after_gate_keeps_storage m fragparts loads ls :
  respects (fun s => localStorage s = ls)
    (fun ev => ev <> Call_showIncompatibleBrowser)
    (configHardCheck m loads ;; appLoad m fragparts loads).
Proof. unfold_stages. respects_steps; try discriminate; auto. Qed.

Lemma start_localStorage {R} env sb st m :
  import_init env = Fulfilled m ->
  localStorage (store (start (R:=R) env sb st))
  = localStorage (store (start_try env sb m st)).
Proof.
  intros Himport. rewrite (start_run _ _ _ m Himport), try_catch_run.
  generalize (start_try env sb m st). intros tried.
  destruct (completion tried) as [| |e|]; try reflexivity.
  rewrite start_catch_run. destruct e; reflexivity.
Qed.

Lemma prompt_needs_refusal env sb m st :
  In Call_showIncompatibleBrowser (events (start_try env sb m st)) ->
  acceptBrowser sb (localStorage st) = false
  /\ exists loads, completion (before_gate env m st) = Normal loads.
Proof.
  intros Hin. rewrite start_try_stages in Hin.
  apply bind_events_In in Hin as [Hin|(loads & Hn & Hin)].
  { destruct (no_prompt_before_gate env m st I) as [_ Hall].
    rewrite List.Forall_forall in Hall. now elim (Hall _ Hin). }
  split; [|now exists loads].
  destruct (localStorage_before_gate env m (localStorage st) st eq_refl)
    as [Hkept _].
  generalize dependent (before_gate env m st). intros before _ Hin Hkept.
  apply bind_events_In in Hin as [Hin|([] & _ & Hin)].
  - rewrite compatibilityGate_run, Hkept in Hin.
    destruct (acceptBrowser sb (localStorage st)); [elim Hin|reflexivity].
  - match type of Hin with
    | In _ (events (_ ?s)) =>
        destruct (after_gate_keeps_storage m (fragparts_of_location env) loads
                    (localStorage s) s eq_refl) as [_ Hall]
    end.
    rewrite List.Forall_forall in Hall. now elim (Hall _ Hin).
Qed.

Lemma accepted_prompt_is_stored env sb m st loads items :
  completion (before_gate env m st) = Normal loads ->
  acceptBrowser sb (localStorage st) = false ->
  localStorage st = Some items ->
  showIncompatibleBrowser m = Returns UserAccepts ->
  localStorage (store (start_try env sb m st))
  = Some (<[accept_key := "true"]> items).
Proof.
  intros Hbefore Hacc Hls Huser.
  rewrite start_try_stages, bind_run, Hbefore.
  destruct (localStorage_before_gate env m (localStorage st) st eq_refl)
    as [Hkept _].
  generalize dependent (before_gate env m st). intros before _ Hkept.
  cbn [store]. rewrite bind_run, compatibilityGate_run, Hkept, Hacc, Huser, Hls.
  cbn [completion store].
  match goal with
  | |- localStorage (store (_ ?s)) = _ =>
      destruct (after_gate_keeps_storage m (fragparts_of_location env) loads
                  (localStorage s) s eq_refl) as [Hafter _]
  end.
  rewrite Hafter. reflexivity.
Qed.

(** X9: when the incompatible-browser page is shown in a browser that has
    localStorage and the user accepts, the run ends with localStorage as it
    was plus the entry "mx_accepts_unsupported_browser" = "true" (whatever
    happens after the gate), and with that localStorage [acceptBrowser] is
    true for any verdict of the probe: the next page load does not ask. *)
Theorem acceptance_is_remembered (env : Env) (m : InitModule)
    (supportedBrowser : bool) (st : Store) (items : gmap string string) :
  import_init env = Fulfilled m ->
  localStorage st = Some items ->
  showIncompatibleBrowser m = Returns UserAccepts ->
  In Call_showIncompatibleBrowser
     (events (start (R:=unit) env supportedBrowser st)) ->
  let r := start (R:=unit) env supportedBrowser st in
  localStorage (store r) = Some (<[accept_key := "true"]> items)
  /\ forall verdict, acceptBrowser verdict (localStorage (store r)) = true.
Proof.
  intros Himport Hls Huser Hin r.
  assert (Hstored : localStorage (store r) = Some (<[accept_key := "true"]> items)).
  { subst r. rewrite (start_localStorage _ _ _ m Himport).
    rewrite start_events, Himport in Hin.
    apply in_app_iff in Hin as [Hin|Hin].
    - apply prompt_needs_refusal in Hin as (Hacc & loads & Hbefore).
      now apply (accepted_prompt_is_stored _ _ _ _ loads).
    - destruct (completion (start_try env supportedBrowser m st)) as [| |e|];
        try now elim Hin.
      rewrite start_catch_run in Hin. destruct e.
      + destruct Hin as [Hin|[]]; discriminate Hin.
      + destruct Hin as [Hin|[Hin|[]]]; discriminate Hin. }
  split; [exact Hstored|].
  intros verdict. rewrite Hstored. destruct verdict; [reflexivity|].
  cbn. unfold getItem. now rewrite lookup_insert_eq.
Qed.

Lemma acceptance_is_remembered_witness :
  let st := Samples.store_of (Some Samples.dated) (Some ∅) in
  let r := start (R:=unit) Samples.desktop false st in
  localStorage (store r) = Some (<[accept_key := "true"]> ∅)
  /\ forall verdict, acceptBrowser verdict (localStorage (store r)) = true.
Proof.
  intros st r.
  apply (acceptance_is_remembered Samples.desktop Samples.init_ok false st ∅);
    try reflexivity.
  vm_compute. in_list.
Defined.

(** X15: when the gate is reached with [acceptBrowser] false and the user
    never accepts, [start] logs the missing features, shows the
    incompatible-browser page and stays there: its promise remains pending,
    nothing is written, no error page is shown and nothing after the gate
    runs. *)
Theorem gate_waits_for_the_user (env : Env) (m : InitModule)
    (supportedBrowser : bool) (st : Store) (loads : Loads) :
  import_init env = Fulfilled m ->
  completion (before_gate env m st) = Normal loads ->
  acceptBrowser supportedBrowser (localStorage st) = false ->
  showIncompatibleBrowser m = Returns UserNever ->
  start (R:=unit) env supportedBrowser st =
    mkRun (Normal Pending) (store (before_gate env m st))
          (events (before_gate env m st)
           ++ [ConsoleError "Browser is missing required features." [];
               Call_showIncompatibleBrowser]).
Proof.
  intros Himport Hbefore Hacc Huser.
  rewrite (start_run _ _ _ m Himport), try_catch_run.
  rewrite (start_try_at_gate _ _ _ _ _ Hbefore). cbv zeta.
  destruct (localStorage_before_gate env m (localStorage st) st eq_refl)
    as [Hkept _].
  generalize dependent (before_gate env m st). intros before _ Hkept.
  rewrite bind_run, compatibilityGate_run, Hkept, Hacc, Huser.
  reflexivity.
Qed.

Lemma gate_waits_for_the_user_witness :
  let env := Samples.page Samples.desktop_ua VUndefined Samples.no_fragment
               Samples.init_user_never in
  let st := Samples.store_of (Some Samples.dated) (Some ∅) in
  start (R:=unit) env false st =
    mkRun (Normal Pending) st
          [Call_loadOlm; Call_preparePlatform; Call_loadConfig;
           Call_setupLogStorage; Call_loadLanguage; Call_loadTheme;
           Call_loadSkin;
           ConsoleError "Browser is missing required features." [];
           Call_showIncompatibleBrowser].
Proof.
  intros env st.
  apply (gate_waits_for_the_user env Samples.init_user_never false st
           (mkLoads (Fulfilled VUndefined) (Fulfilled VUndefined)
              (Fulfilled VUndefined) (Fulfilled VUndefined)
              (Fulfilled VUndefined) (Fulfilled VUndefined)));
    reflexivity.
Defined.

(** ** The way to the app *)

Lemma preload_Normal_all m st loads :
  completion (preload m st) = Normal loads ->
  loadOlm m = Returns (loadOlmPromise loads)
  /\ preparePlatform m = Returns tt
  /\ loadConfig m = Returns (loadConfigPromise loads)
  /\ setupLogStorage m = Returns (persistLogsPromise loads)
  /\ loadLanguage m = Returns (loadLanguagePromise loads)
  /\ loadTheme m = Returns (loadThemePromise loads)
  /\ loadSkin m = Returns (loadSkinPromise loads).
Proof.
  unfold preload. intros H. invert_binds H.
  cbn in H. injection H as <-. cbn.
  repeat match goal with u : unit |- _ => destruct u end.
  repeat split; assumption.
Qed.

Lemma settled_one_then {R B} (p : Promise JsVal) (k : unit -> M R B) st :
  (q <- settled [p] ;; await q ;; k tt) st =
    match p with
    | Fulfilled _ => k tt st
    | Rejected e =>
        mkRun (completion (k tt st)) (store (k tt st))
              (ConsoleErrorObj e :: events (k tt st))
    | Pending => mkRun Hang st []
    end.
Proof.
  destruct p; cbn; try reflexivity; now destruct (k tt st).
Qed.

Lemma before_gate_Normal env m st loads :
  completion (before_gate env m st) = Normal loads ->
  settles (rageshakePromise m)
  /\ redirects env = false
  /\ exists s, completion (preload m s) = Normal loads.
Proof.
  unfold before_gate.
  rewrite (settled_one_then (rageshakePromise m)
             (fun _ => bind (redirectCheck env (fragparts_of_location env)) _)).
  intros H.
  assert (Hsettles : settles (rageshakePromise m)).
  { intros Hp. rewrite Hp in H. discriminate H. }
  assert (Hk : completion ((redirectCheck env (fragparts_of_location env) ;;
                            preload m) st) = Normal loads).
  { destruct (rageshakePromise m); [exact H|exact H|now elim Hsettles]. }
  clear H. apply bind_Normal_inv in Hk as ([] & Hred & Hpre & _ & _).
  rewrite redirectCheck_run in Hred, Hpre.
  destruct (redirects env); [discriminate Hred|].
  split; [assumption|]. split; [reflexivity|]. eauto.
Qed.

Lemma until_gate_before env sb m st loads :
  completion (until_gate env sb m st) = Normal loads ->
  completion (before_gate env m st) = Normal loads.
Proof.
  unfold until_gate. intros H.
  apply bind_Normal_inv in H as (loads0 & Hbefore & H & _ & _).
  apply bind_Normal_inv in H as ([] & _ & H & _ & _).
  cbn in H. now injection H as <-.
Qed.

Lemma after_gate_loadApp m fragparts loads st ev :
  is_loadApp ev ->
  In ev (events ((configHardCheck m loads ;; appLoad m fragparts loads) st)) ->
  loads_succeed loads.
Proof.
  intros [arg ->] Hin.
  destruct (loadConfigPromise loads) as [v|e|] eqn:Hconfig.
  2:{ rewrite (after_gate_config_rejected _ _ _ _ e Hconfig) in Hin.
      destruct e; [elim Hin|]. destruct Hin as [Hin|[]]. discriminate Hin. }
  2:{ unfold configHardCheck in Hin. rewrite Hconfig in Hin. elim Hin. }
  unfold configHardCheck, appLoad in Hin. rewrite Hconfig in Hin.
  unfold loads_succeed. rewrite Hconfig.
  destruct (loadOlmPromise loads); [|elim Hin|elim Hin].
  destruct (loadSkinPromise loads); [|elim Hin|elim Hin].
  destruct (loadThemePromise loads); [|elim Hin|elim Hin].
  destruct (loadLanguagePromise loads); [|elim Hin|elim Hin].
  destruct (persistLogsPromise loads); [| |elim Hin];
    repeat split; eauto; discriminate.
Qed.

(** X6: [start] calls [loadApp] only on a run in which "./init" was
    imported, the rageshake promise has settled, the page was not sent to
    the mobile guide, preparePlatform returned, the promises of loadOlm,
    loadConfig, loadLanguage, loadTheme and loadSkin were all fulfilled, and
    the promise of setupLogStorage has settled (fulfilled or rejected). *)
Theorem app_load_needs_every_critical_load (env : Env)
    (supportedBrowser : bool) (st : Store) (arg : gmap string string) :
  In (Call_loadApp arg) (events (start (R:=unit) env supportedBrowser st)) ->
  exists m,
    import_init env = Fulfilled m
    /\ settles (rageshakePromise m)
    /\ redirects env = false
    /\ critical_loaders_succeed m
    /\ log_storage_settles m.
Proof.
  intros Hin. rewrite start_events in Hin.
  destruct (import_init env) as [m| |]; try now elim Hin.
  exists m. split; [reflexivity|].
  apply loadApp_needs_gate in Hin as (loads & Hn & Hin); [|now exists arg].
  apply after_gate_loadApp in Hin; [|now exists arg].
  apply until_gate_before, before_gate_Normal in Hn
    as (Hrage & Hred & s & Hpre).
  apply preload_Normal_all in Hpre
    as (Holm & Hprep & Hconfig & Hlogs & Hlang & Htheme & Hskin).
  destruct Hin as ((v1 & H1) & (v2 & H2) & (v3 & H3) & (v4 & H4) & (v5 & H5) & H6).
  rewrite H1 in Hconfig. rewrite H2 in Holm. rewrite H3 in Hskin.
  rewrite H4 in Htheme. rewrite H5 in Hlang.
  repeat split; eauto.
  exists (persistLogsPromise loads). auto.
Qed.

Lemma app_load_needs_every_critical_load_witness :
  critical_loaders_succeed Samples.init_ok
  /\ redirects Samples.desktop = false.
Proof.
  destruct (app_load_needs_every_critical_load Samples.desktop true
              (Samples.store_of (Some Samples.modern) None) ∅)
    as (m & Him & _ & Hred & Hcrit & _).
  - vm_compute. in_list.
  - injection Him as <-. split; assumption.
Defined.

Lemma preload_succeeds m st logs :
  critical_loaders_succeed m ->
  setupLogStorage m = Returns logs ->
  settles logs ->
  exists loads,
    preload m st = mkRun (Normal loads) st preload_calls
    /\ loads_succeed loads
    /\ persistLogsPromise loads = logs.
Proof.
  intros (Hprep & (v1 & Holm) & (v2 & Hconfig) & (v3 & Hlang) & (v4 & Htheme)
          & (v5 & Hskin)) Hlogs Hsettles.
  exists (mkLoads (Fulfilled v1) (Fulfilled v2) logs (Fulfilled v3)
            (Fulfilled v4) (Fulfilled v5)).
  split; [|split; [|reflexivity]].
  - unfold preload. rewrite Holm, Hprep, Hconfig, Hlogs, Hlang, Htheme, Hskin.
    reflexivity.
  - cbn. repeat split; eauto.
Qed.

(** X7: on a page load where "./init" is imported, the rageshake promise
    settles, the page is not sent to the mobile guide, every loader returns
    a promise that is fulfilled (the promise of setupLogStorage may as well
    reject), [acceptBrowser] is true and [loadApp] returns a promise that is
    fulfilled, [start] makes exactly these calls, in this order: the seven
    loaders, then [loadApp] with the parameters of the fragment; it logs
    only the rejections of the rageshake and log-storage promises, shows no
    page, leaves the store as it was and its promise is fulfilled. *)
Theorem successful_loads_reach_the_app (env : Env) (m : InitModule)
    (supportedBrowser : bool) (st : Store) (logs : Promise JsVal) (v : JsVal) :
  import_init env = Fulfilled m ->
  settles (rageshakePromise m) ->
  redirects env = false ->
  critical_loaders_succeed m ->
  setupLogStorage m = Returns logs ->
  settles logs ->
  acceptBrowser supportedBrowser (localStorage st) = true ->
  loadApp m (params (fragparts_of_location env)) = Returns (Fulfilled v) ->
  start (R:=unit) env supportedBrowser st =
    mkRun (Normal (Fulfilled VUndefined)) st
          (rejection_log [rageshakePromise m]
           ++ preload_calls
           ++ rejection_log [logs]
           ++ [Call_loadApp (params (fragparts_of_location env))]).
Proof.
  intros Himport Hrage Hred Hcrit Hlogs Hsettles Hacc Happ.
  destruct (preload_succeeds m st logs Hcrit Hlogs Hsettles)
    as (loads & Hpre & Hloads & Hl).
  assert (Hbefore : before_gate env m st =
                      mkRun (Normal loads) st
                            (rejection_log [rageshakePromise m] ++ preload_calls)).
  { unfold before_gate.
    rewrite (settled_one_then (rageshakePromise m)
               (fun _ => bind (redirectCheck env (fragparts_of_location env)) _)).
    rewrite bind_run, redirectCheck_run, Hred. cbn [completion store events app].
    rewrite Hpre.
    destruct (rageshakePromise m); [reflexivity|reflexivity|now elim Hrage]. }
  rewrite (start_run _ _ _ m Himport), try_catch_run.
  rewrite start_try_stages, bind_run, Hbefore. cbn [completion store events].
  rewrite bind_run, compatibilityGate_run, Hacc. cbn [completion store events].
  rewrite (after_gate_succeeds _ _ _ _ Hloads), Happ, Hl.
  cbn [completion store events promise_of app].
  now rewrite <- app_assoc.
Qed.

Lemma successful_loads_reach_the_app_witness :
  start (R:=unit) Samples.desktop true (Samples.store_of (Some Samples.modern) None)
  = mkRun (Normal (Fulfilled VUndefined))
          (Samples.store_of (Some Samples.modern) None)
          [Call_loadOlm; Call_preparePlatform; Call_loadConfig;
           Call_setupLogStorage; Call_loadLanguage; Call_loadTheme;
           Call_loadSkin; Call_loadApp ∅].
Proof.
  apply (successful_loads_reach_the_app Samples.desktop Samples.init_ok true
           (Samples.store_of (Some Samples.modern) None)
           (Fulfilled VUndefined) VUndefined); try reflexivity.
  - discriminate.
  - repeat split; eexists; reflexivity.
  - discriminate.
Defined.

(** ** The order of the loader calls *)

Section InOrder.
Context {R : Type} (f : Event -> bool).

Lemma filter_silent (evs : list Event) :
  Forall (fun ev => f ev = false) evs -> List.filter f evs = [].
Proof.
  induction 1 as [|ev evs Hev _ IH]; [reflexivity|]. cbn. now rewrite Hev.
Qed.

Lemma in_order_silent {A} (c : M R A) :
  respects (fun _ => True) (fun ev => f ev = false) c -> in_order f [] c.
Proof.
  intros Hc st. destruct (Hc st I) as [_ Hall].
  rewrite (filter_silent _ Hall). split; [now exists 0%nat|reflexivity].
Qed.

Lemma in_order_call {A} ev (result : CallResult A) :
  f ev = true -> in_order (R:=R) f [ev] (call ev result).
Proof.
  intros Hev st. destruct result; cbn; rewrite Hev;
    (split; [now exists 1%nat|reflexivity]).
Qed.

Lemma in_order_bind {A B} xs ys (c : M R A) (k : A -> M R B) :
  in_order f xs c -> (forall a, in_order f ys (k a)) ->
  in_order f (xs ++ ys) (bind c k).
Proof.
  intros Hc Hk st. destruct (Hc st) as [[n Hn] Hall]. rewrite bind_run.
  destruct (completion (c st)) as [a| | |] eqn:Hcompl; cbn [completion events].
  - destruct (Hk a (store (c st))) as [[n' Hn'] Hall'].
    rewrite List.filter_app, (Hall a eq_refl). split.
    + exists (length xs + n')%nat. rewrite Hn'.
      rewrite List.firstn_app_2. reflexivity.
    + intros b Hb. now rewrite (Hall' b Hb).
  - split; [|discriminate]. exists (Nat.min n (length xs)).
    rewrite Hn, List.firstn_app.
    replace (Nat.min n (length xs) - length xs)%nat with 0%nat by lia.
    cbn. rewrite app_nil_r. now rewrite <- List.firstn_firstn, List.firstn_all.
  - split; [|discriminate]. exists (Nat.min n (length xs)).
    rewrite Hn, List.firstn_app.
    replace (Nat.min n (length xs) - length xs)%nat with 0%nat by lia.
    cbn. rewrite app_nil_r. now rewrite <- List.firstn_firstn, List.firstn_all.
  - split; [|discriminate]. exists (Nat.min n (length xs)).
    rewrite Hn, List.firstn_app.
    replace (Nat.min n (length xs) - length xs)%nat with 0%nat by lia.
    cbn. rewrite app_nil_r. now rewrite <- List.firstn_firstn, List.firstn_all.
Qed.
End InOrder.

Ltac silent_preload :=
  apply in_order_silent; respects_steps; first [reflexivity | auto].

Lemma preload_in_order m :
  in_order is_preload_call preload_calls (preload m).
Proof.
  unfold preload.
  change preload_calls with
    ([Call_loadOlm] ++ [Call_preparePlatform] ++ [Call_loadConfig] ++ []
     ++ [] ++ [Call_setupLogStorage] ++ [Call_loadLanguage] ++ [Call_loadTheme]
     ++ [Call_loadSkin] ++ [] ++ [] ++ []).
  repeat (apply in_order_bind; [|intros]);
    first [now apply in_order_call | silent_preload].
Qed.

Lemma start_try_in_order env sb m :
  in_order is_preload_call preload_calls (start_try env sb m).
Proof.
  unfold start_try.
  change preload_calls with ([] ++ [] ++ [] ++ preload_calls ++ []).
  apply in_order_bind; [silent_preload|intros].
  apply in_order_bind; [silent_preload|intros].
  apply in_order_bind;
    [apply in_order_silent; unfold redirectCheck;
     respects_steps; first [reflexivity | auto]|intros].
  apply in_order_bind; [apply preload_in_order|intros].
  apply in_order_silent.
  unfold compatibilityGate, awaitUserAcceptance, configHardCheck, appLoad.
  respects_steps; first [reflexivity | auto].
Qed.

Lemma start_catch_silent m e :
  respects (fun _ => True) (fun ev => is_preload_call ev = false)
    (start_catch m e).
Proof. unfold start_catch. respects_steps; first [reflexivity | auto]. Qed.

(** X8: in every run of [start] the calls of the seven loaders of lines
    134-149 are an initial segment of loadOlm, preparePlatform, loadConfig,
    setupLogStorage, loadLanguage, loadTheme, loadSkin: each loader is
    called at most once, in this order, and a loader is called only after
    every loader before it has been called (so loadConfig never runs before
    preparePlatform). *)
Theorem loaders_are_called_in_source_order (env : Env)
    (supportedBrowser : bool) (st : Store) :
  exists n,
    List.filter is_preload_call (events (start (R:=unit) env supportedBrowser st))
    = firstn n [Call_loadOlm; Call_preparePlatform; Call_loadConfig;
                Call_setupLogStorage; Call_loadLanguage; Call_loadTheme;
                Call_loadSkin].
Proof.
  rewrite start_events. destruct (import_init env) as [m| |];
    [|now exists 0%nat|now exists 0%nat].
  destruct (start_try_in_order env supportedBrowser m st) as [[n Hn] _].
  exists n. rewrite List.filter_app, Hn.
  destruct (completion (start_try env supportedBrowser m st)) as [| |e|];
    cbn [List.filter]; rewrite ?app_nil_r; try reflexivity.
  destruct (start_catch_silent m e (store (start_try env supportedBrowser m st)) I)
    as [_ Hall].
  now rewrite (filter_silent _ _ Hall), app_nil_r.
Qed.

(** ** Failures that are tolerated, and failures that are shown *)

Lemma start_try_with_rageshake env sb m p st :
  start_try (with_init (with_rageshake p m) env) sb (with_rageshake p m) st =
    (q <- settled [p] ;; await q ;;
     redirectCheck env (fragparts_of_location env) ;;
     loads <- preload m ;;
     compatibilityGate m sb ;;
     configHardCheck m loads ;;
     appLoad m (fragparts_of_location env) loads) st.
Proof. reflexivity. Qed.

(** X13: a rejection of the rageshake promise changes nothing in the run
    of [start] but one more line in the log: with the same page and the same
    exports otherwise, the run with a rejected rageshake promise has the
    outcome, the store and the events of the run with a fulfilled one, after
    the logged rejection. *)
Theorem rageshake_failure_is_only_logged (env : Env) (m : InitModule)
    (supportedBrowser : bool) (st : Store) (e : JsError) (v : JsVal) :
  let failed := with_rageshake (Rejected e) m in
  let loaded := with_rageshake (Fulfilled v) m in
  let r := start (R:=unit) (with_init loaded env) supportedBrowser st in
  start (R:=unit) (with_init failed env) supportedBrowser st =
    mkRun (completion r) (store r) (ConsoleErrorObj e :: events r).
Proof.
  intros failed loaded r. subst r.
  rewrite (start_run (with_init failed env) _ _ failed eq_refl).
  rewrite (start_run (with_init loaded env) _ _ loaded eq_refl).
  rewrite !try_catch_run.
  subst failed loaded. rewrite !start_try_with_rageshake.
  rewrite (settled_one_then (Rejected e)
             (fun _ => bind (redirectCheck env (fragparts_of_location env)) _)).
  rewrite (settled_one_then (Fulfilled v)
             (fun _ => bind (redirectCheck env (fragparts_of_location env)) _)).
  cbv beta.
  generalize ((redirectCheck env (fragparts_of_location env) ;;
               loads <- preload m ;;
               compatibilityGate m supportedBrowser ;;
               configHardCheck m loads ;;
               appLoad m (fragparts_of_location env) loads) st).
  intros [[| |e'|] s evs]; reflexivity.
Qed.






(** ** What reaches the last-resort handler *)

Section Returns.
Context {R : Type} (P : R -> Prop).

Lemma returns_ret {A} (a : A) : returns P (ret a).
Proof. intros st r H. discriminate H. Qed.

Lemma returns_throw {A} e : returns (A:=A) P (throw e).
Proof. intros st r H. discriminate H. Qed.

Lemma returns_return {A} v : P v -> returns (A:=A) P (return_ v).
Proof. intros Hv st r [= <-]. exact Hv. Qed.

Lemma returns_read {A} e property (field : ErrorObject -> A) :
  returns P (read e property field).
Proof. intros st r H. destruct e; discriminate H. Qed.

Lemma returns_await {A} (p : Promise A) : returns P (await p).
Proof. intros st r H. destruct p; discriminate H. Qed.

Lemma returns_emit ev : returns P (emit ev).
Proof. intros st r H. discriminate H. Qed.

Lemma returns_call {A} ev (result : CallResult A) : returns P (call ev result).
Proof. intros st r H. destruct result; discriminate H. Qed.

Lemma returns_get_localStorage : returns P get_localStorage.
Proof. intros st r H. discriminate H. Qed.

Lemma returns_setItem key value : returns P (setItem key value).
Proof. intros st r H. discriminate H. Qed.

Lemma returns_set_href url : returns P (set_href url).
Proof. intros st r H. discriminate H. Qed.

Lemma returns_async {A} (body : M RetVal A) : returns P (async body).
Proof. intros st r H. discriminate H. Qed.

Lemma returns_bind {A B} (c : M R A) (k : A -> M R B) :
  returns P c -> (forall a, returns P (k a)) -> returns P (bind c k).
Proof.
  intros Hc Hk st r. rewrite bind_run.
  destruct (completion (c st)) as [a| | |] eqn:Hcompl; cbn; try discriminate.
  - apply Hk.
  - intros [= <-]. now apply (Hc st).
Qed.

Lemma returns_bind_call {A B} ev (result : CallResult A) (k : A -> M R B) :
  (forall a, result = Returns a -> returns P (k a)) ->
  returns P (bind (call ev result) k).
Proof.
  intros Hk st r. rewrite bind_run. destruct result as [a|e]; cbn;
    [|discriminate].
  now apply Hk.
Qed.

Lemma returns_try_catch {A} (body : M R A) handler :
  returns P body -> (forall e, returns P (handler e)) ->
  returns P (try_catch body handler).
Proof.
  intros Hb Hh st r. rewrite try_catch_run.
  destruct (completion (body st)) as [a| |e|] eqn:Hcompl; cbn.
  - now rewrite Hcompl.
  - rewrite Hcompl. intros [= <-]. now apply (Hb st).
  - apply Hh.
  - now rewrite Hcompl.
Qed.
End Returns.

Ltac returns_step :=
  lazymatch goal with
  | |- returns _ (bind (call _ _) _) => apply returns_bind_call; intros
  | |- returns _ (bind _ _) => apply returns_bind; [|intros]
  | |- returns _ (try_catch _ _) => apply returns_try_catch; [|intros]
  | |- returns _ (ret _) => apply returns_ret
  | |- returns _ (throw _) => apply returns_throw
  | |- returns _ (return_ _) => apply returns_return
  | |- returns _ (read _ _ _) => apply returns_read
  | |- returns _ (await _) => apply returns_await
  | |- returns _ (emit _) => apply returns_emit
  | |- returns _ (call _ _) => apply returns_call
  | |- returns _ get_localStorage => apply returns_get_localStorage
  | |- returns _ (setItem _ _) => apply returns_setItem
  | |- returns _ (set_href _) => apply returns_set_href
  | |- returns _ (settled _) => apply returns_async
  | |- returns _ (async _) => apply returns_async
  | |- returns _ (if ?b then _ else _) => destruct b
  | |- returns _ (match ?x with _ => _ end) => destruct x
  end.

Lemma start_try_returns env sb m :
  returns
    (fun r => r = RetUndefined
              \/ exists title lines p,
                   r = RetPromise p /\ showError m title lines = Returns p)
    (start_try env sb m).
Proof.
  unfold start_try, redirectCheck, preload, compatibilityGate,
    awaitUserAcceptance, configHardCheck, appLoad.
  repeat returns_step; first [now left | right; eauto].
Qed.

Lemma start_rejected env sb st m reason :
  import_init env = Fulfilled m ->
  completion (start (R:=unit) env sb st) = Normal (Rejected reason) ->
  match completion (start_try env sb m st) with
  | Return (RetPromise p) => p = Rejected reason
  | Throw e =>
      exists s, promise_of (completion (start_catch m e s)) = Rejected reason
  | _ => False
  end.
Proof.
  intros Himport. rewrite (start_run _ _ _ m Himport), try_catch_run.
  generalize (start_try env sb m st).
  intros [[a|[|p]|e|] s evs]; cbn [completion store promise_of]; intros H.
  - discriminate H.
  - discriminate H.
  - now injection H.
  - exists s. now injection H.
  - discriminate H.
Qed.

(** X16: the promise of [start] is rejected, and so the static page of
    the last-resort handler attached, in three cases only: the import of
    "./init" was rejected; or [showError] threw or returned a promise that
    was rejected; or the try block threw [null] or [undefined], on which
    line 217 throws a TypeError.  A loader that fails with an error object
    never leads there as long as [showError] works. *)
Theorem start_rejects_only_without_error_page (env : Env)
    (supportedBrowser : bool) (st : Store) (reason : JsError) :
  completion (start (R:=unit) env supportedBrowser st)
    = Normal (Rejected reason) ->
  import_init env = Rejected reason
  \/ exists m,
       import_init env = Fulfilled m
       /\ ((exists title lines,
              showError m title lines = Raises reason
              \/ showError m title lines = Returns (Rejected reason))
           \/ exists n,
                completion (start_try env supportedBrowser m st)
                  = Throw (ThrownNullish n)
                /\ reason = TypeError n "translatedMessage").
Proof.
  intros Hrej. destruct (import_init env) as [m| |] eqn:Himport.
  - right. exists m. split; [reflexivity|].
    pose proof (start_rejected _ _ _ m _ Himport Hrej) as H.
    pose proof (start_try_returns env supportedBrowser m st) as Hret.
    clear Hrej.
    destruct (completion (start_try env supportedBrowser m st))
      as [a|[|p]|e|]; try contradiction.
    + destruct (Hret _ eq_refl) as [H'|(title & lines & p' & [= <-] & Hshow)];
        [discriminate H'|].
      left. exists title, lines. right. now rewrite Hshow, H.
    + clear Hret. destruct H as [s H]. rewrite start_catch_run in H.
      destruct e as [n|o].
      * right. exists n. split; [reflexivity|].
        now injection H as <-.
      * left. cbn [completion] in H.
        match type of H with
        | context [showError m ?t ?l] =>
            exists t, l; destruct (showError m t l) as [[| |]|]
        end; try discriminate H; injection H as <-; auto.
  - left. unfold start, async, start_body in Hrej.
    rewrite bind_await_unfulfilled in Hrej by (rewrite Himport; discriminate).
    rewrite Himport in Hrej. cbn in Hrej. now injection Hrej as <-.
  - unfold start, async, start_body in Hrej.
    rewrite bind_await_unfulfilled in Hrej by (rewrite Himport; discriminate).
    rewrite Himport in Hrej. discriminate Hrej.
Qed.

Lemma start_rejects_only_without_error_page_witness :
  let env := Samples.page Samples.desktop_ua VUndefined Samples.no_fragment
               Samples.init_offline in
  let st := Samples.store_of (Some Samples.modern) None in
  let reason := Samples.boom "ErrorView chunk failed" in
  completion (start (R:=unit) env true st) = Normal (Rejected reason)
  /\ (import_init env = Rejected reason
      \/ exists m,
           import_init env = Fulfilled m
           /\ ((exists title lines,
                  showError m title lines = Raises reason
                  \/ showError m title lines = Returns (Rejected reason))
               \/ exists n,
                    completion (start_try env true m st)
                      = Throw (ThrownNullish n)
                    /\ reason = TypeError n "translatedMessage")).
Proof.
  intros env st reason. split; [reflexivity|].
  apply (start_rejects_only_without_error_page env true st reason).
  reflexivity.
Defined.
